(** * unc_text: the chunk text buffer of uncrustify (src/unc_text.cpp)

    A shallow embedding of the code-point buffer, its mutators, the
    comparator and the search/replace routines, followed by the
    properties of the buffer that are checked against the code. *)

From Stdlib Require Import ZArith Lia.
From stdpp Require Import base list strings.

Local Open Scope Z_scope.

(** ** Machine integers

    [size_t] is an unsigned 64-bit integer and [int] a signed 32-bit
    integer.  Both are carried by [Z]; every place where the C++ code
    converts or can wrap is written out with [to_size_t] or [to_int]. *)

Definition SIZE_MOD : Z := 2 ^ 64.
Definition INT_MOD : Z := 2 ^ 32.
Definition INT_MAX : Z := 2 ^ 31 - 1.
Definition INT_MIN : Z := - 2 ^ 31.

(** Conversion to [size_t]: reduction modulo 2^64. *)
Definition to_size_t (z : Z) : Z := z mod SIZE_MOD.

(** Conversion to [int]: the representative of [z] modulo 2^32 that lies
    in [INT_MIN, INT_MAX]. *)
Definition to_int (z : Z) : Z := (z - INT_MIN) mod INT_MOD + INT_MIN.

Definition int_sub (a b : Z) : Z := to_int (a - b).
Definition int_neg (a : Z) : Z := to_int (- a).
Definition int_add (a b : Z) : Z := to_int (a + b).

Definition in_int (z : Z) : Prop := INT_MIN <= z <= INT_MAX.
Definition in_size_t (z : Z) : Prop := 0 <= z < SIZE_MOD.

(** ** Outcome of a call

    [Fault] stands for undefined behaviour of the C++ code (an access
    outside a vector, an iterator range outside the vector).  [OutOfFuel]
    belongs to the model only: loops whose trip count is not a structural
    argument run on an iteration budget. *)

Inductive outcome (A : Type) : Type :=
| Done (a : A)
| Fault
| OutOfFuel.

Arguments Done {A} a.
Arguments Fault {A}.
Arguments OutOfFuel {A}.

Definition bind {A B : Type} (m : outcome A) (k : A -> outcome B) : outcome B :=
  match m with
  | Done a => k a
  | Fault => Fault
  | OutOfFuel => OutOfFuel
  end.

Notation "'let*' x ':=' m 'in' k" := (bind m (fun x => k))
  (at level 10, x name, m at level 100, k at level 200).

(** ** Vectors and C strings *)

(** [v.size()] *)
Definition vec_size (v : list Z) : Z := Z.of_nat (length v).

(** [v[i]] as an rvalue; [i] is a [size_t]. *)
Definition vec_get (v : list Z) (i : Z) : outcome Z :=
  match v !! Z.to_nat i with
  | Some x => Done x
  | None => Fault
  end.

(** [v[i] = x] *)
Definition vec_set (v : list Z) (i : Z) (x : Z) : outcome (list Z) :=
  if i <? vec_size v then Done (<[Z.to_nat i := x]> v) else Fault.

(** [v.resize(n)]: truncates, or pads with value-initialised elements.
    A failed allocation is not modelled. *)
Definition vec_resize (v : list Z) (n : Z) : list Z :=
  take (Z.to_nat n) v ++ replicate (Z.to_nat n - length v)%nat 0.

(** A [const char *] argument is the list of its characters before the
    terminating NUL, each already promoted to [int]. *)
Definition strlen (text : list Z) : Z := Z.of_nat (length text).

(** ** The buffer *)

Record unc_text : Type := mk_unc_text {
  m_chars : list Z;      (* the code points *)
  m_logtext : list Z;    (* the bytes of the display form *)
  m_logok : bool         (* whether m_logtext is up to date *)
}.

Definition size (t : unc_text) : Z := vec_size (m_chars t).

(** [fix_len_idx] *)
Definition fix_len_idx (size idx len : Z) : Z :=
  if idx >=? size then 0
  else
    let left := to_size_t (size - idx) in
    if len >? left then left else len.

(** ** Search *)

(** The inner loop of [find] and [rfind]: compares [text[ii..]] with the
    buffer from [idx + ii] on; [text] is the part of the pattern that is
    still to be compared.  The result is the final value of [match]. *)
Fixpoint match_loop (chars : list Z) (idx : Z) (text : list Z) (ii : Z)
  : outcome bool :=
  match text with
  | [] => Done true
  | c :: text' =>
      let* x := vec_get chars (to_size_t (idx + ii)) in
      if negb (x =? c) then Done false
      else match_loop chars idx text' (to_size_t (ii + 1))
  end.

(** The outer loop of [find]. *)
Fixpoint find_loop (chars text : list Z) (midx : Z) (fuel : nat) (idx : Z)
  : outcome Z :=
  match fuel with
  | O => OutOfFuel
  | S fuel' =>
      if idx <=? midx then
        let* m := match_loop chars idx text 0 in
        if m then Done (to_int idx)
        else find_loop chars text midx fuel' (to_size_t (idx + 1))
      else Done (-1)
  end.

(** [unc_text::find]; the loop body runs at most [midx - sidx + 1] times. *)
Definition find (t : unc_text) (text : list Z) (sidx : Z) : outcome Z :=
  let len := strlen text in
  let si := size t in
  if si <? len then Done (-1)
  else
    let midx := to_size_t (si - len) in
    find_loop (m_chars t) text midx (Z.to_nat (midx - sidx) + 2) sidx.

(** The loop of [rfind]: [idx] counts down to zero, so the recursion is on
    [idx] itself. *)
Fixpoint rfind_loop (chars text : list Z) (n : nat) : outcome Z :=
  match n with
  | O => Done (-1)
  | S n' =>
      let idx := Z.of_nat n in
      let* m := match_loop chars idx text 0 in
      if m then Done (to_int idx) else rfind_loop chars text n'
  end.

(** [unc_text::rfind] *)
Definition rfind (t : unc_text) (text : list Z) (sidx : Z) : outcome Z :=
  let len := strlen text in
  let midx := to_size_t (size t - len) in
  let sidx := if sidx >? midx then midx else sidx in
  rfind_loop (m_chars t) text (Z.to_nat sidx).

(** ** Equality and prefix tests *)

(** The loop of [equals]. *)
Fixpoint equals_loop (t ref : unc_text) (len : Z) (fuel : nat) (idx : Z)
  : outcome bool :=
  match fuel with
  | O => OutOfFuel
  | S fuel' =>
      if idx <? len then
        let* c1 := vec_get (m_chars t) idx in
        let* c2 := vec_get (m_chars ref) idx in
        if negb (c1 =? c2) then Done false
        else equals_loop t ref len fuel' (to_size_t (idx + 1))
      else Done true
  end.

(** [unc_text::equals]; the loop body runs at most [len] times. *)
Definition equals (t ref : unc_text) : outcome bool :=
  let len := size t in
  if negb (size ref =? len) then Done false
  else equals_loop t ref len (Z.to_nat len + 1) 0.

(** The loop of [startswith] for a C string pattern.  [text] is what the
    pointer [text] still points to, so [*text] is non-zero exactly when the
    list is not empty; the two loop conditions have no side effect, so the
    order in which they are looked at does not matter. *)
Fixpoint startswith_cstr_loop (t : unc_text) (orig_idx : Z) (text : list Z) (idx : Z)
  : outcome bool :=
  match text with
  | [] => Done (negb (idx =? orig_idx) && true)
  | c :: text' =>
      if idx <? size t then
        let* x := vec_get (m_chars t) idx in
        if negb (c =? x) then Done false
        else startswith_cstr_loop t orig_idx text' (to_size_t (idx + 1))
      else Done (negb (idx =? orig_idx) && false)
  end.

(** [startswith(const char *text, size_t idx)] *)
Definition startswith_cstr (t : unc_text) (text : list Z) (idx : Z) : outcome bool :=
  startswith_cstr_loop t idx text idx.

(** The loop of [startswith] for a buffer pattern. *)
Fixpoint startswith_loop (t text : unc_text) (orig_idx : Z) (fuel : nat) (idx si : Z)
  : outcome bool :=
  match fuel with
  | O => OutOfFuel
  | S fuel' =>
      if (idx <? size t) && (si <? size text) then
        let* c := vec_get (m_chars text) si in
        let* x := vec_get (m_chars t) idx in
        if negb (c =? x) then Done false
        else startswith_loop t text orig_idx fuel'
               (to_size_t (idx + 1)) (to_size_t (si + 1))
      else Done (negb (idx =? orig_idx) && (si =? size text))
  end.

(** [startswith(const unc_text &text, size_t idx)]; the loop body runs at
    most [text.size()] times. *)
Definition startswith (t text : unc_text) (idx : Z) : outcome bool :=
  startswith_loop t text idx (Z.to_nat (size text) + 1) idx 0.

(** ** Mutators *)

(** [v.insert(v.begin() + idx, first, last)]; an iterator past the end is
    undefined behaviour. *)
Definition vec_insert (v : list Z) (idx : Z) (l : list Z) : outcome (list Z) :=
  if idx <=? vec_size v
  then Done (take (Z.to_nat idx) v ++ l ++ drop (Z.to_nat idx) v)
  else Fault.

(** [v.erase(v.begin() + idx, v.begin() + idx + len)] *)
Definition vec_erase (v : list Z) (idx len : Z) : outcome (list Z) :=
  if idx + len <=? vec_size v
  then Done (take (Z.to_nat idx) v ++ drop (Z.to_nat (idx + len)) v)
  else Fault.

Definition with_chars (t : unc_text) (chars : list Z) (logok : bool) : unc_text :=
  {| m_chars := chars; m_logtext := m_logtext t; m_logok := logok |}.

(** [set(int ch)] *)
Definition set_ch (t : unc_text) (ch : Z) : unc_text :=
  with_chars t ([] ++ [ch]) false.

(** [set(const unc_text &ref)] *)
Definition set_text (t ref : unc_text) : unc_text :=
  with_chars t (m_chars ref) false.

(** An argument that is passed by reference and read while the target is
    being written: either an object other than the target, or the target's
    own vector, as in [t.set(t, idx, len)]. *)
Inductive arg (A : Type) : Type :=
| Other (a : A)
| Self.

Arguments Other {A} a.
Arguments Self {A}.

(** What the reference denotes while the target's vector holds [cur]. *)
Definition seen {A : Type} (x : arg A) (cur : A) : A :=
  match x with
  | Other a => a
  | Self => cur
  end.

(** [ref.m_chars] as a reference to a vector. *)
Definition chars_arg (ref : arg unc_text) : arg (list Z) :=
  match ref with
  | Other r => Other (m_chars r)
  | Self => Self
  end.

(** The copy loop of the ranged [set] overloads; [len] counts down to
    zero, so the recursion is on [len].  Every round reads the source as
    it is at that moment: when the source is the target's own vector, the
    writes of the earlier rounds and the resize before the loop show. *)
Fixpoint copy_loop (src : arg (list Z)) (len : nat) (di idx : Z) (dst : list Z)
  : outcome (list Z) :=
  match len with
  | O => Done dst
  | S len' =>
      let* x := vec_get (seen src dst) idx in
      let* dst' := vec_set dst di x in
      copy_loop src len' (to_size_t (di + 1)) (to_size_t (idx + 1)) dst'
  end.

(** [set(const unc_text &ref, size_t idx, size_t len)]; [ref_size] is
    taken before the resize. *)
Definition set_range (t : unc_text) (ref : arg unc_text) (idx len : Z)
  : outcome unc_text :=
  let ref_size := vec_size (seen (chars_arg ref) (m_chars t)) in
  if len =? ref_size
  then Done (with_chars t (seen (chars_arg ref) (m_chars t)) false)
  else
    let chars := vec_resize (m_chars t) len in
    let len := fix_len_idx ref_size idx len in
    let* chars := copy_loop (chars_arg ref) (Z.to_nat len) 0 idx chars in
    Done (with_chars t chars false).

(** The loop of the [set] overloads for a [std::string] and for a C string:
    stores [ascii_text[idx..]] from position [idx] on. *)
Fixpoint store_loop (ascii_text : list Z) (idx : Z) (dst : list Z)
  : outcome (list Z) :=
  match ascii_text with
  | [] => Done dst
  | c :: rest =>
      let* dst' := vec_set dst idx c in
      store_loop rest (to_size_t (idx + 1)) dst'
  end.

(** [set(const string &ascii_text)] and its twin for a C string *)
Definition set_string (t : unc_text) (ascii_text : list Z) : outcome unc_text :=
  let len := strlen ascii_text in
  let chars := vec_resize (m_chars t) len in
  let* chars := store_loop ascii_text 0 chars in
  Done (with_chars t chars false).

(** [set(const value_type &data, size_t idx, size_t len)]; [data.size()]
    is taken after the resize. *)
Definition set_data (t : unc_text) (data : arg (list Z)) (idx len : Z)
  : outcome unc_text :=
  let chars := vec_resize (m_chars t) len in
  let len := fix_len_idx (vec_size (seen data chars)) idx len in
  let* chars := copy_loop data (Z.to_nat len) 0 idx chars in
  Done (with_chars t chars false).

(** [resize] *)
Definition resize (t : unc_text) (new_size : Z) : unc_text :=
  if size t =? new_size then t
  else with_chars t (vec_resize (m_chars t) new_size) false.

(** [clear] *)
Definition clear (t : unc_text) : unc_text := with_chars t [] false.

(** [insert(size_t idx, int ch)] *)
Definition insert_ch (t : unc_text) (idx ch : Z) : outcome unc_text :=
  let* chars := vec_insert (m_chars t) idx [ch] in
  Done (with_chars t chars false).

(** [insert(size_t idx, const unc_text &ref)] *)
Definition insert (t : unc_text) (idx : Z) (ref : unc_text) : outcome unc_text :=
  let* chars := vec_insert (m_chars t) idx (m_chars ref) in
  Done (with_chars t chars false).

(** [append(int ch)] *)
Definition append_ch (t : unc_text) (ch : Z) : unc_text :=
  with_chars t (m_chars t ++ [ch]) false.

(** [append(const unc_text &ref)] *)
Definition append (t ref : unc_text) : unc_text :=
  with_chars t (m_chars t ++ m_chars ref) false.

(** [erase]: the flag [m_logok] is left as it is. *)
Definition erase (t : unc_text) (idx len : Z) : outcome unc_text :=
  if len =? 0 then Done t
  else
    let* chars := vec_erase (m_chars t) idx len in
    Done (with_chars t chars (m_logok t)).

(** Modelled from the spec: the default value of the second parameter of
    [find], declared in unc_text.h; the spec has [replace] look for the
    occurrences left to right, from the start of the buffer. *)
Definition find_default_idx : Z := 0.

(** The [while] loop of [replace].  [log] is a ghost value: it records,
    for every replacement carried out, the index [fidx] at which it took
    place and the index handed to the next [find]. *)
Fixpoint replace_loop (oldtext : list Z) (newtext : unc_text) (fuel : nat)
    (fidx rcnt : Z) (t : unc_text) (log : list (Z * Z))
  : outcome (Z * unc_text * list (Z * Z)) :=
  let olen := strlen oldtext in
  let newtext_size := size newtext in
  if fidx >=? 0 then
    match fuel with
    | O => OutOfFuel
    | S fuel' =>
        let rcnt := int_add rcnt 1 in
        let* t := erase t (to_size_t fidx) olen in
        let* t := insert t (to_size_t fidx) newtext in
        let next :=
          to_size_t (to_size_t (to_size_t (to_size_t fidx + newtext_size) - olen) + 1) in
        let* fidx' := find t oldtext next in
        replace_loop oldtext newtext fuel' fidx' rcnt t (log ++ [(fidx, next)])
    end
  else Done (rcnt, t, log).

(** [unc_text::replace], run on an iteration budget of [fuel] rounds. *)
Definition replace (fuel : nat) (t : unc_text) (oldtext : list Z) (newtext : unc_text)
  : outcome (Z * unc_text * list (Z * Z)) :=
  let* fidx := find t oldtext find_default_idx in
  replace_loop oldtext newtext fuel fidx 0 t [].

(** ** Code that calls into the external collaborators *)

Section External.

(** [encode_utf8(ch, res)] appends the encoded form of [ch] to [res]; the
    bytes it appends are [encode_utf8 ch]. *)
Variable encode_utf8 : Z -> list Z.

(** [unc_tolower] of unc_ctype.h. *)
Variable unc_tolower : Z -> Z.

(** The range-for loop of [update_logtext]. *)
Fixpoint logtext_loop (chars : list Z) (logtext : list Z) : list Z :=
  match chars with
  | [] => logtext
  | m_char :: rest =>
      let m_char :=
        if m_char =? 10 then 0x2424
        else if m_char =? 13 then 0x240d
        else m_char in
      logtext_loop rest (logtext ++ encode_utf8 m_char)
  end.

(** [update_logtext] *)
Definition update_logtext (t : unc_text) : unc_text :=
  if m_logok t then t
  else
    let logtext := logtext_loop (m_chars t) [] in
    {| m_chars := m_chars t; m_logtext := logtext ++ [0]; m_logok := true |}.

(** [c_str]: the bytes the returned pointer gives access to, and the
    buffer after the call. *)
Definition c_str (t : unc_text) : list Z * unc_text :=
  let t := update_logtext t in
  (m_logtext t, t).

(** What [compare] returns after its loop. *)
Definition compare_tail (len1 len2 len idx : Z) : Z :=
  if idx =? len then 0
  else
    to_int (if len1 >? len2
            then to_size_t (len1 - len2)
            else to_size_t (int_neg (to_int (to_size_t (len2 - len1))))).

(** The loop of [compare]. *)
Fixpoint compare_loop (ref1 ref2 : unc_text) (len max_idx : Z) (fuel : nat) (idx : Z)
  : outcome Z :=
  match fuel with
  | O => OutOfFuel
  | S fuel' =>
      if idx <? max_idx then
        let* c1 := vec_get (m_chars ref1) idx in
        let* c2 := vec_get (m_chars ref2) idx in
        if c1 =? c2 then compare_loop ref1 ref2 len max_idx fuel' (to_size_t (idx + 1))
        else
          let diff := int_sub (unc_tolower c1) (unc_tolower c2) in
          if diff =? 0 then Done (int_neg (int_sub c1 c2))
          else Done diff
      else Done (compare_tail (size ref1) (size ref2) len idx)
  end.

(** [unc_text::compare]; the loop body runs at most [max_idx] times. *)
Definition compare (ref1 ref2 : unc_text) (len : Z) : outcome Z :=
  let len1 := size ref1 in
  let len2 := size ref2 in
  let max_idx := Z.min len (Z.min len1 len2) in
  compare_loop ref1 ref2 len max_idx (Z.to_nat max_idx + 1) 0.

End External.

(** Modelled from the spec: the lowercasing function of unc_ctype.h, which
    is not part of src; it maps a code point to its lowercase form and is
    the identity on a code point that is not cased.  Used for the examples
    on ASCII text only. *)
Definition ascii_tolower (ch : Z) : Z :=
  if (65 <=? ch) && (ch <=? 90) then ch + 32 else ch.

(** ** Vocabulary of the properties *)

(** The pattern [text] occurs contiguously in [chars] at index [i]. *)
Definition occurs_at (chars text : list Z) (i : nat) : Prop :=
  (i + length text <= length chars)%nat /\
  take (length text) (drop i chars) = text.

#[global] Instance occurs_at_dec chars text i : Decision (occurs_at chars text i).
Proof. unfold occurs_at. apply _. Defined.

(** What [find] promises about its result [r] for a search from [sidx]. *)
Definition find_post (chars text : list Z) (sidx r : Z) : Prop :=
  (r = -1 /\ forall i : nat, sidx <= Z.of_nat i -> ~ occurs_at chars text i) \/
  (sidx <= r /\ occurs_at chars text (Z.to_nat r) /\
   forall i : nat, sidx <= Z.of_nat i < r -> ~ occurs_at chars text i).

(** What the downward scan from [n] yields: the rightmost occurrence among
    the indices [n], [n-1], ..., 1.  Index 0 is not among them. *)
Definition rfind_post (chars text : list Z) (n : nat) (r : Z) : Prop :=
  (r = -1 /\ forall i : nat, (1 <= i <= n)%nat -> ~ occurs_at chars text i) \/
  (exists i : nat, r = to_int (Z.of_nat i) /\ (1 <= i <= n)%nat /\
     occurs_at chars text i /\
     forall j : nat, (i < j <= n)%nat -> ~ occurs_at chars text j).

(** The substitution the spec describes: the visible symbols for a
    newline and for a carriage return, any other code point unchanged. *)
Definition spec_visible (ch : Z) : Z :=
  if ch =? 10 then 9252        (* U+2424 *)
  else if ch =? 13 then 9229   (* U+240D *)
  else ch.

(** The display form the spec describes: the encoded substituted code
    points in order, then one zero byte. *)
Definition spec_display (encode : Z -> list Z) (chars : list Z) : list Z :=
  concat (map (fun ch => encode (spec_visible ch)) chars) ++ [0].

(** The shape of the replacement log for a search that (re)starts at index
    [from]: every replacement takes place at an index [f] at or after
    [from], where the pattern fits below [INT_MAX], and the next search
    starts at [f + nlen - olen + 1], computed in [size_t]. *)
Fixpoint log_ok (olen nlen from : Z) (log : list (Z * Z)) : Prop :=
  match log with
  | [] => True
  | (f, next) :: rest =>
      from <= f /\ 0 <= f /\ f + olen <= INT_MAX /\
      next = to_size_t (f + nlen - olen + 1) /\
      log_ok olen nlen next rest
  end.

(** The claim that every search resumes after the text that was just
    inserted: the text inserted at [f] ends at [f + nlen]. *)
Definition resumes_after_insert (nlen : Z) (log : list (Z * Z)) : Prop :=
  Forall (fun '(f, next) => f + nlen <= next) log.

(** The first index at or after [from] at which [old] occurs in [chars]. *)
Definition spec_first_occurrence (chars old : list Z) (from : nat) : option nat :=
  List.find (fun i => bool_decide (occurs_at chars old i))
            (seq from (S (length chars) - from)).

(** [replace] as the spec words it: find each occurrence from left to
    right, put the new text in its place, and go on searching just after
    the text that was inserted; the result is the number of replacements
    and the text that is left.  At most [rounds] replacements are made. *)
Fixpoint spec_replace (rounds : nat) (chars old new : list Z) (from : nat)
  : nat * list Z :=
  match rounds with
  | O => (0%nat, chars)
  | S rounds' =>
      match spec_first_occurrence chars old from with
      | None => (0%nat, chars)
      | Some i =>
          let chars' := take i chars ++ new ++ drop (i + length old) chars in
          let (n, rest) := spec_replace rounds' chars' old new (i + length new) in
          (S n, rest)
      end
  end.

(** The code points of an ASCII literal: each [char] promoted to [int]. *)
Definition chars_of (s : string) : list Z :=
  (fun a => Z.of_nat (Ascii.nat_of_ascii a)) <$> String.list_ascii_of_string s.

(** A buffer with the given code points and no display form yet. *)
Definition buf (l : list Z) : unc_text := mk_unc_text l [] false.

(** A code point that is a non-negative [int]. *)
Definition code_point (c : Z) : Prop := 0 <= c <= INT_MAX.

(** ** Facts about the machine integers *)

Lemma SIZE_MOD_val : SIZE_MOD = 18446744073709551616.
Proof. reflexivity. Qed.

Lemma INT_MOD_val : INT_MOD = 4294967296.
Proof. reflexivity. Qed.

Lemma INT_MAX_val : INT_MAX = 2147483647.
Proof. reflexivity. Qed.

Lemma INT_MIN_val : INT_MIN = -2147483648.
Proof. reflexivity. Qed.

Ltac int_consts :=
  rewrite ?SIZE_MOD_val, ?INT_MOD_val, ?INT_MAX_val, ?INT_MIN_val in *.

Lemma to_size_t_small z : 0 <= z < SIZE_MOD -> to_size_t z = z.
Proof. intros H. unfold to_size_t. apply Z.mod_small. exact H. Qed.

Lemma to_size_t_range z : 0 <= to_size_t z < SIZE_MOD.
Proof. unfold to_size_t. apply Z.mod_pos_bound. reflexivity. Qed.

Lemma to_size_t_borrow z : - SIZE_MOD <= z < 0 -> to_size_t z = z + SIZE_MOD.
Proof.
  intros H. unfold to_size_t.
  rewrite <- (Z.mod_add z 1 SIZE_MOD) by (int_consts; lia).
  apply Z.mod_small. lia.
Qed.

Lemma to_int_small z : INT_MIN <= z <= INT_MAX -> to_int z = z.
Proof.
  intros H. unfold to_int.
  rewrite Z.mod_small; [lia | int_consts; lia].
Qed.

Lemma to_int_range z : INT_MIN <= to_int z <= INT_MAX.
Proof.
  unfold to_int.
  pose proof (Z.mod_pos_bound (z - INT_MIN) INT_MOD eq_refl).
  int_consts. lia.
Qed.

(** Going through [size_t] does not change what an [int] conversion
    yields: 2^32 divides 2^64. *)
Lemma to_int_to_size_t z : to_int (to_size_t z) = to_int z.
Proof.
  unfold to_int, to_size_t. f_equal.
  rewrite (Z.mod_eq z SIZE_MOD) by (int_consts; lia).
  replace (z - SIZE_MOD * (z / SIZE_MOD) - INT_MIN)
    with (z - INT_MIN + (- (INT_MOD * (z / SIZE_MOD))) * INT_MOD)
    by (int_consts; lia).
  apply Z.mod_add. int_consts. lia.
Qed.

(** ** Occurrences of a pattern *)

Lemma occurs_at_cons chars c text i :
  occurs_at chars (c :: text) i <->
  chars !! i = Some c /\ occurs_at chars text (S i).
Proof.
  unfold occurs_at. simpl. split.
  - intros [Hlen Heq].
    destruct (chars !! i) as [x|] eqn:Hx.
    + rewrite (drop_S _ _ _ Hx) in Heq. simpl in Heq.
      injection Heq as -> Heq. repeat split; [lia | exact Heq].
    + apply lookup_ge_None in Hx. lia.
  - intros [Hx [Hlen Heq]].
    split; [lia |].
    rewrite (drop_S _ _ _ Hx). simpl. by rewrite Heq.
Qed.

Lemma occurs_at_nil chars i :
  occurs_at chars [] i <-> (i <= length chars)%nat.
Proof.
  unfold occurs_at. simpl. rewrite Nat.add_0_r. split; [tauto |].
  intros H. split; [exact H | reflexivity].
Qed.

(** While every access stays inside the buffer, the inner loop decides
    whether the rest of the pattern occurs at [idx + ii]. *)
Lemma match_loop_in_bounds text : forall chars idx ii,
  0 <= idx -> 0 <= ii ->
  idx + ii + strlen text <= vec_size chars ->
  vec_size chars < SIZE_MOD ->
  match_loop chars idx text ii =
    Done (bool_decide (occurs_at chars text (Z.to_nat (idx + ii)))).
Proof.
  unfold strlen, vec_size.
  induction text as [|c text IH]; intros chars idx ii Hidx Hii Hfit Hsz.
  - simpl. rewrite bool_decide_eq_true_2; [reflexivity |].
    apply occurs_at_nil. simpl in Hfit. lia.
  - simpl match_loop. simpl length in Hfit.
    rewrite to_size_t_small by lia.
    unfold vec_get.
    destruct (chars !! Z.to_nat (idx + ii)) as [x|] eqn:Hx; simpl.
    2:{ apply lookup_ge_None in Hx. lia. }
    destruct (Z.eqb_spec x c) as [->|Hne]; simpl.
    + rewrite to_size_t_small by lia.
      rewrite IH by lia.
      replace (Z.to_nat (idx + (ii + 1))) with (S (Z.to_nat (idx + ii))) by lia.
      f_equal. apply bool_decide_ext.
      rewrite occurs_at_cons. tauto.
    + rewrite bool_decide_eq_false_2; [reflexivity |].
      rewrite occurs_at_cons. intros [H _]. congruence.
Qed.

(** ** [find] *)

Lemma occurs_at_bound chars text i :
  occurs_at chars text i -> Z.of_nat i <= vec_size chars - strlen text.
Proof. unfold occurs_at, vec_size, strlen. intros [H _]. lia. Qed.

Lemma find_loop_spec chars text : forall fuel idx,
  strlen text <= vec_size chars ->
  vec_size chars <= INT_MAX ->
  0 <= idx ->
  (Z.to_nat (vec_size chars - strlen text + 1 - idx) < fuel)%nat ->
  exists r,
    find_loop chars text (vec_size chars - strlen text) fuel idx = Done r /\
    find_post chars text idx r.
Proof.
  induction fuel as [|fuel IH]; intros idx Hlen Hsz Hidx Hfuel; [lia |].
  pose proof INT_MAX_val as HM. pose proof SIZE_MOD_val as HS.
  assert (0 <= strlen text) by (unfold strlen; lia).
  simpl find_loop.
  destruct (Z.leb_spec idx (vec_size chars - strlen text)) as [Hin|Hout].
  - rewrite match_loop_in_bounds by lia.
    rewrite Z.add_0_r. simpl.
    destruct (bool_decide_reflect (occurs_at chars text (Z.to_nat idx))) as [Hocc|Hocc].
    + exists idx. rewrite to_int_small by (int_consts; lia).
      split; [reflexivity |]. right.
      split; [lia |]. split; [exact Hocc |]. intros i Hi. lia.
    + rewrite to_size_t_small by lia.
      destruct (IH (idx + 1)) as (r & Hr & Hpost); [lia .. |].
      exists r. split; [exact Hr |].
      assert (Hstep : forall i : nat, idx <= Z.of_nat i -> Z.of_nat i < idx + 1 ->
                                     ~ occurs_at chars text i).
      { intros i H1 H2. replace i with (Z.to_nat idx) by lia. exact Hocc. }
      destruct Hpost as [[-> Hnone] | (Hle & Hocc' & Hleft)].
      * left. split; [reflexivity |]. intros i Hi.
        destruct (Z.lt_ge_cases (Z.of_nat i) (idx + 1)); [apply Hstep; lia |].
        apply Hnone. lia.
      * right. split; [lia |]. split; [exact Hocc' |]. intros i Hi.
        destruct (Z.lt_ge_cases (Z.of_nat i) (idx + 1)); [apply Hstep; lia |].
        apply Hleft. lia.
  - exists (-1). split; [reflexivity |]. left. split; [reflexivity |].
    intros i Hi Hocc. apply occurs_at_bound in Hocc. lia.
Qed.

(** [find] returns, and its result is the leftmost occurrence at or after
    [sidx], or -1 when there is none. *)
Lemma find_spec t text sidx :
  size t <= INT_MAX -> in_size_t sidx ->
  exists r, find t text sidx = Done r /\ find_post (m_chars t) text sidx r.
Proof.
  unfold size, in_size_t. intros Hsz Hsidx. unfold find, size.
  pose proof INT_MAX_val as HM. pose proof SIZE_MOD_val as HS.
  assert (0 <= strlen text) by (unfold strlen; lia).
  destruct (Z.ltb_spec (vec_size (m_chars t)) (strlen text)) as [Hshort|Hfit].
  - exists (-1). split; [reflexivity |]. left. split; [reflexivity |].
    intros i Hi Hocc. apply occurs_at_bound in Hocc. lia.
  - rewrite to_size_t_small by lia.
    apply find_loop_spec; lia.
Qed.

Lemma find_post_range chars text sidx r :
  0 <= sidx -> find_post chars text sidx r ->
  r = -1 \/ (sidx <= r /\ r + strlen text <= vec_size chars).
Proof.
  intros Hs [[-> _] | (Hle & Hocc & _)]; [left; reflexivity | right].
  apply occurs_at_bound in Hocc. lia.
Qed.

(** ** [rfind] *)

Lemma rfind_loop_spec chars text : forall n,
  Z.of_nat n + strlen text <= vec_size chars ->
  vec_size chars < SIZE_MOD ->
  exists r, rfind_loop chars text n = Done r /\ rfind_post chars text n r.
Proof.
  induction n as [|n IH]; intros Hfit Hsz.
  - exists (-1). split; [reflexivity |]. left. split; [reflexivity |]. lia.
  - assert (0 <= strlen text) by (unfold strlen; lia).
    cbn [rfind_loop].
    rewrite match_loop_in_bounds by lia.
    rewrite Z.add_0_r, Nat2Z.id. cbn [bind].
    destruct (bool_decide_reflect (occurs_at chars text (S n))) as [Hocc|Hocc].
    + exists (to_int (Z.of_nat (S n))). split; [reflexivity |]. right.
      exists (S n). refine (conj eq_refl (conj _ (conj Hocc _))); lia.
    + destruct IH as (r & Hr & Hpost); [lia | lia |].
      exists r. split; [exact Hr |].
      destruct Hpost as [[-> Hnone] | (i & -> & Hi & Hocc' & Hright)].
      * left. split; [reflexivity |]. intros i Hi.
        destruct (decide (i = S n)) as [->|]; [exact Hocc | apply Hnone; lia].
      * right. exists i. refine (conj eq_refl (conj _ (conj Hocc' _))); [lia |].
        intros j Hj.
        destruct (decide (j = S n)) as [->|]; [exact Hocc | apply Hright; lia].
Qed.

(** With a pattern that fits the buffer, [rfind] returns: the rightmost
    occurrence among the indices from 1 to [min sidx (size - len)]. *)
Lemma rfind_spec t text sidx :
  strlen text <= size t -> size t < SIZE_MOD -> in_size_t sidx ->
  exists r, rfind t text sidx = Done r /\
    rfind_post (m_chars t) text
      (Z.to_nat (Z.min sidx (size t - strlen text))) r.
Proof.
  unfold size, in_size_t. intros Hfit Hsz Hsidx. unfold rfind, size.
  assert (0 <= strlen text) by (unfold strlen; lia).
  rewrite to_size_t_small by lia.
  destruct (Z.gtb_spec sidx (vec_size (m_chars t) - strlen text)).
  - rewrite Z.min_r by lia. apply rfind_loop_spec; lia.
  - rewrite Z.min_l by lia. apply rfind_loop_spec; lia.
Qed.

(** With a pattern longer than the buffer the bound [midx] wraps, and a
    scan that starts at or beyond the end of the buffer reads outside it. *)
Lemma rfind_wraps t text sidx :
  size t < strlen text -> strlen text < SIZE_MOD -> in_size_t sidx ->
  Z.max 1 (size t) <= sidx ->
  rfind t text sidx = Fault.
Proof.
  unfold size, in_size_t. intros Hlong Hlen Hsidx Hstart.
  unfold rfind, size.
  assert (0 <= vec_size (m_chars t)) by (unfold vec_size; lia).
  rewrite to_size_t_borrow by lia.
  set (idx0 := if sidx >? _ then _ else sidx).
  assert (Hidx0 : Z.max 1 (vec_size (m_chars t)) <= idx0 < SIZE_MOD).
  { subst idx0. destruct (Z.gtb_spec sidx (vec_size (m_chars t) - strlen text + SIZE_MOD)); lia. }
  destruct (Z.to_nat idx0) as [|n] eqn:Hn; [lia |].
  destruct text as [|c text]; [unfold strlen in Hlong; simpl in Hlong; lia |].
  cbn [rfind_loop match_loop].
  rewrite <- Hn, Z2Nat.id, Z.add_0_r by lia.
  rewrite to_size_t_small by lia.
  unfold vec_get. rewrite lookup_ge_None_2; [reflexivity |].
  unfold vec_size in Hidx0. lia.
Qed.

(** ** [compare] *)

Section Compare.

Variable unc_tolower : Z -> Z.
Variables ref1 ref2 : unc_text.
Variables len max_idx : Z.

Hypothesis max_idx_1 : max_idx <= size ref1.
Hypothesis max_idx_2 : max_idx <= size ref2.
Hypothesis max_idx_size_t : max_idx < SIZE_MOD.

(** The loop steps over a stretch on which the two buffers agree. *)
Lemma compare_loop_skip : forall (n fuel : nat) (idx : Z),
  0 <= idx -> idx + Z.of_nat n <= max_idx ->
  (forall j : nat, idx <= Z.of_nat j < idx + Z.of_nat n ->
     m_chars ref1 !! j = m_chars ref2 !! j) ->
  compare_loop unc_tolower ref1 ref2 len max_idx (n + fuel) idx =
  compare_loop unc_tolower ref1 ref2 len max_idx fuel (idx + Z.of_nat n).
Proof using max_idx_1 max_idx_2 max_idx_size_t.
  unfold size, vec_size in *.
  induction n as [|n IH]; intros fuel idx Hidx Hn Hagree.
  - simpl. by rewrite Z.add_0_r.
  - cbn [Nat.add compare_loop].
    destruct (Z.ltb_spec idx max_idx); [| lia].
    pose proof (Hagree (Z.to_nat idx) ltac:(lia)) as Hj.
    unfold vec_get.
    destruct (m_chars ref1 !! Z.to_nat idx) as [c|] eqn:H1.
    2:{ apply lookup_ge_None in H1. lia. }
    rewrite <- Hj. cbn [bind]. rewrite Z.eqb_refl.
    rewrite to_size_t_small by lia.
    rewrite IH; [f_equal; lia | lia | lia |].
    intros j Hjr. apply Hagree. lia.
Qed.

(** At the first position where the buffers differ the loop returns. *)
Lemma compare_loop_differ (fuel : nat) (idx c1 c2 : Z) :
  0 <= idx < max_idx ->
  m_chars ref1 !! Z.to_nat idx = Some c1 ->
  m_chars ref2 !! Z.to_nat idx = Some c2 ->
  c1 <> c2 ->
  compare_loop unc_tolower ref1 ref2 len max_idx (S fuel) idx =
    Done (let diff := int_sub (unc_tolower c1) (unc_tolower c2) in
          if diff =? 0 then int_neg (int_sub c1 c2) else diff).
Proof using Type.
  intros Hidx H1 H2 Hne. cbn [compare_loop].
  destruct (Z.ltb_spec idx max_idx); [| lia].
  unfold vec_get. rewrite H1, H2. cbn [bind].
  destruct (Z.eqb_spec c1 c2); [contradiction |].
  cbv zeta. by destruct (_ =? 0).
Qed.

(** When the loop runs to [max_idx] the tail of [compare] decides. *)
Lemma compare_loop_exit (fuel : nat) (idx : Z) :
  max_idx <= idx ->
  compare_loop unc_tolower ref1 ref2 len max_idx (S fuel) idx =
    Done (compare_tail (size ref1) (size ref2) len idx).
Proof using Type.
  intros Hidx. cbn [compare_loop].
  destruct (Z.ltb_spec idx max_idx); [lia | reflexivity].
Qed.

End Compare.

(** The tail computes the signed difference of the lengths. *)
Lemma compare_tail_diff len1 len2 len idx :
  idx <> len ->
  0 <= len1 <= INT_MAX -> 0 <= len2 <= INT_MAX ->
  compare_tail len1 len2 len idx = len1 - len2.
Proof.
  intros Hne H1 H2. unfold compare_tail.
  pose proof INT_MAX_val as HM. pose proof INT_MIN_val as Hm.
  pose proof SIZE_MOD_val as HS.
  destruct (Z.eqb_spec idx len); [contradiction |].
  destruct (Z.gtb_spec len1 len2); rewrite to_int_to_size_t.
  - apply to_int_small. lia.
  - unfold int_neg. rewrite to_int_to_size_t.
    rewrite (to_int_small (len2 - len1)) by lia.
    rewrite (to_int_small (- (len2 - len1))) by lia.
    rewrite to_int_small by lia. lia.
Qed.

Lemma agree_of_take (a b : list Z) (n : nat) :
  take n a = take n b ->
  forall j : nat, (j < n)%nat -> a !! j = b !! j.
Proof.
  intros Heq j Hj.
  rewrite <- (lookup_take_lt a n j), <- (lookup_take_lt b n j) by lia.
  by rewrite Heq.
Qed.

(** ** Vector operations and the mutators built on them *)

Lemma vec_size_nonneg v : 0 <= vec_size v.
Proof. unfold vec_size. lia. Qed.

Lemma vec_size_app v w : vec_size (v ++ w) = vec_size v + vec_size w.
Proof. unfold vec_size. rewrite length_app. lia. Qed.

Lemma vec_insert_ok v idx l :
  0 <= idx <= vec_size v ->
  vec_insert v idx l =
    Done (take (Z.to_nat idx) v ++ l ++ drop (Z.to_nat idx) v).
Proof.
  intros H. unfold vec_insert.
  destruct (Z.leb_spec idx (vec_size v)); [reflexivity | lia].
Qed.

Lemma vec_erase_ok v idx len :
  idx + len <= vec_size v ->
  vec_erase v idx len =
    Done (take (Z.to_nat idx) v ++ drop (Z.to_nat (idx + len)) v).
Proof.
  intros H. unfold vec_erase.
  destruct (Z.leb_spec (idx + len) (vec_size v)); [reflexivity | lia].
Qed.

Lemma vec_size_inserted v idx l :
  0 <= idx <= vec_size v ->
  vec_size (take (Z.to_nat idx) v ++ l ++ drop (Z.to_nat idx) v) =
    vec_size v + vec_size l.
Proof.
  unfold vec_size. intros H.
  rewrite !length_app, length_take, length_drop. lia.
Qed.

Lemma vec_size_erased v idx len :
  0 <= idx -> 0 <= len -> idx + len <= vec_size v ->
  vec_size (take (Z.to_nat idx) v ++ drop (Z.to_nat (idx + len)) v) =
    vec_size v - len.
Proof.
  unfold vec_size. intros Hidx Hlen H.
  rewrite !length_app, length_take, length_drop. lia.
Qed.

(** Erasing the range that was just inserted gives the vector back. *)
Lemma vec_erase_inserted v idx l :
  0 <= idx <= vec_size v ->
  take (Z.to_nat idx) (take (Z.to_nat idx) v ++ l ++ drop (Z.to_nat idx) v) ++
  drop (Z.to_nat (idx + vec_size l))
    (take (Z.to_nat idx) v ++ l ++ drop (Z.to_nat idx) v) = v.
Proof.
  unfold vec_size. intros H.
  assert (Hlen : length (take (Z.to_nat idx) v) = Z.to_nat idx)
    by (rewrite length_take; lia).
  rewrite take_app_length' by (by rewrite Hlen).
  rewrite app_assoc.
  rewrite drop_app_length' by (rewrite length_app, Hlen; lia).
  apply take_drop.
Qed.

Lemma vec_size_resize v n : 0 <= n -> vec_size (vec_resize v n) = n.
Proof.
  unfold vec_size, vec_resize. intros H.
  rewrite length_app, length_take, length_replicate. lia.
Qed.

Lemma vec_resize_nil n : vec_resize [] n = replicate (Z.to_nat n) 0.
Proof.
  unfold vec_resize. rewrite take_nil. simpl. f_equal. lia.
Qed.

Lemma insert_ok t idx ref :
  0 <= idx <= size t ->
  exists t', insert t idx ref = Done t' /\
    m_chars t' =
      take (Z.to_nat idx) (m_chars t) ++ m_chars ref ++ drop (Z.to_nat idx) (m_chars t) /\
    size t' = size t + size ref /\
    m_logok t' = false.
Proof.
  unfold size. intros H. unfold insert.
  rewrite vec_insert_ok by exact H. cbn [bind].
  eexists. split; [reflexivity |]. cbn [m_chars m_logok with_chars].
  split; [reflexivity |]. split; [| reflexivity].
  by apply vec_size_inserted.
Qed.

Lemma erase_ok t idx len :
  0 <= idx -> 0 <= len -> idx + len <= size t ->
  exists t', erase t idx len = Done t' /\
    m_chars t' =
      take (Z.to_nat idx) (m_chars t) ++ drop (Z.to_nat (idx + len)) (m_chars t) /\
    size t' = size t - len /\
    m_logok t' = m_logok t.
Proof.
  unfold size. intros Hidx Hlen H. unfold erase.
  destruct (Z.eqb_spec len 0) as [->|Hne].
  - exists t. split; [reflexivity |].
    rewrite Z.add_0_r, take_drop. split; [reflexivity |]. split; [lia | reflexivity].
  - rewrite vec_erase_ok by exact H. cbn [bind].
    eexists. split; [reflexivity |]. cbn [m_chars m_logok with_chars].
    split; [reflexivity |]. split; [| reflexivity].
    by apply vec_size_erased.
Qed.

(** [erase] never writes [m_logok]. *)
Lemma erase_keeps_logok t idx len t' :
  erase t idx len = Done t' -> m_logok t' = m_logok t.
Proof.
  unfold erase. destruct (len =? 0).
  - intros [= <-]. reflexivity.
  - destruct (vec_erase (m_chars t) idx len); cbn [bind]; [| discriminate ..].
    intros [= <-]. reflexivity.
Qed.

(** The other mutators all end with [m_logok] cleared. *)
Lemma set_ch_invalidates t ch : m_logok (set_ch t ch) = false.
Proof. reflexivity. Qed.

Lemma set_text_invalidates t ref : m_logok (set_text t ref) = false.
Proof. reflexivity. Qed.

Lemma set_range_invalidates t ref idx len t' :
  set_range t ref idx len = Done t' -> m_logok t' = false.
Proof.
  unfold set_range. destruct (len =? _); [by intros [= <-] |].
  destruct (copy_loop _ _ _ _ _); cbn [bind]; [| discriminate ..].
  by intros [= <-].
Qed.

Lemma set_string_invalidates t ascii_text t' :
  set_string t ascii_text = Done t' -> m_logok t' = false.
Proof.
  unfold set_string.
  destruct (store_loop _ _ _); cbn [bind]; [| discriminate ..].
  by intros [= <-].
Qed.

Lemma set_data_invalidates t data idx len t' :
  set_data t data idx len = Done t' -> m_logok t' = false.
Proof.
  unfold set_data.
  destruct (copy_loop _ _ _ _ _); cbn [bind]; [| discriminate ..].
  by intros [= <-].
Qed.

Lemma resize_invalidates t new_size :
  size t <> new_size -> m_logok (resize t new_size) = false.
Proof.
  intros H. unfold resize. by destruct (Z.eqb_spec (size t) new_size).
Qed.

Lemma clear_invalidates t : m_logok (clear t) = false.
Proof. reflexivity. Qed.

Lemma insert_ch_invalidates t idx ch t' :
  insert_ch t idx ch = Done t' -> m_logok t' = false.
Proof.
  unfold insert_ch.
  destruct (vec_insert _ _ _); cbn [bind]; [| discriminate ..].
  by intros [= <-].
Qed.

Lemma insert_invalidates t idx ref t' :
  insert t idx ref = Done t' -> m_logok t' = false.
Proof.
  unfold insert.
  destruct (vec_insert _ _ _); cbn [bind]; [| discriminate ..].
  by intros [= <-].
Qed.

Lemma append_ch_invalidates t ch : m_logok (append_ch t ch) = false.
Proof. reflexivity. Qed.

Lemma append_invalidates t ref : m_logok (append t ref) = false.
Proof. reflexivity. Qed.

(** ** The ranged [set] *)

Lemma fix_len_idx_beyond size idx len : size <= idx -> fix_len_idx size idx len = 0.
Proof.
  intros H. unfold fix_len_idx.
  destruct (Z.geb_spec idx size); [reflexivity | lia].
Qed.

(** With a start index at or beyond the end of [ref], and a length other
    than the size of [ref], nothing is copied: what is left is the resized
    target. *)
Lemma set_range_beyond t ref idx len :
  vec_size (seen (chars_arg ref) (m_chars t)) <= idx ->
  len <> vec_size (seen (chars_arg ref) (m_chars t)) ->
  set_range t ref idx len =
    Done (with_chars t (vec_resize (m_chars t) len) false).
Proof.
  intros Hidx Hne. unfold set_range.
  destruct (Z.eqb_spec len (vec_size (seen (chars_arg ref) (m_chars t))));
    [contradiction |].
  rewrite fix_len_idx_beyond by exact Hidx. reflexivity.
Qed.

(** With a length equal to the size of [ref] the whole of [ref] is copied,
    whatever the start index. *)
Lemma set_range_full t ref idx :
  set_range t ref idx (vec_size (seen (chars_arg ref) (m_chars t))) =
    Done (with_chars t (seen (chars_arg ref) (m_chars t)) false).
Proof. unfold set_range. by rewrite Z.eqb_refl. Qed.

(** ** The display form *)

Lemma logtext_loop_spec encode : forall chars logtext,
  logtext_loop encode chars logtext =
    logtext ++ concat (map (fun ch => encode (spec_visible ch)) chars).
Proof.
  induction chars as [|ch chars IH]; intros logtext; simpl.
  - by rewrite app_nil_r.
  - rewrite IH, <- app_assoc. reflexivity.
Qed.

Lemma update_logtext_stale encode t :
  m_logok t = false ->
  update_logtext encode t =
    {| m_chars := m_chars t;
       m_logtext := spec_display encode (m_chars t);
       m_logok := true |}.
Proof.
  intros H. unfold update_logtext, spec_display.
  by rewrite H, logtext_loop_spec.
Qed.

Lemma update_logtext_valid encode t :
  m_logok t = true -> update_logtext encode t = t.
Proof. intros H. unfold update_logtext. by rewrite H. Qed.

(** ** [replace] *)

Lemma to_size_t_add_l a b : to_size_t (to_size_t a + b) = to_size_t (a + b).
Proof. unfold to_size_t. apply Zplus_mod_idemp_l. Qed.

Lemma to_size_t_sub_l a b : to_size_t (to_size_t a - b) = to_size_t (a - b).
Proof. unfold to_size_t. apply Zminus_mod_idemp_l. Qed.

Lemma log_ok_weaken olen nlen from from' log :
  from' <= from -> log_ok olen nlen from log -> log_ok olen nlen from' log.
Proof.
  destruct log as [|[f next] rest]; [trivial |].
  simpl. intros Hle (Hf & Hf0 & Hfit & Hnext & Hrest).
  split; [lia |]. done.
Qed.

(** The loop of [replace] comes to an end: [m] bounds the number of
    rounds that are left, and the buffer has room to grow [m] times. *)
Lemma replace_loop_spec oldtext newtext : forall (m : nat) fidx rcnt t log,
  fidx = -1 \/
    (0 <= fidx /\ fidx + strlen oldtext <= size t /\
     size t - fidx - strlen oldtext < Z.of_nat m) ->
  size t + Z.of_nat m * size newtext <= INT_MAX ->
  0 <= rcnt -> rcnt + Z.of_nat m <= INT_MAX ->
  exists rcnt' t' log',
    (forall fuel, (m <= fuel)%nat ->
       replace_loop oldtext newtext fuel fidx rcnt t log =
         Done (rcnt', t', log ++ log')) /\
    rcnt' = rcnt + Z.of_nat (length log') /\
    (fidx < 0 -> log' = []) /\
    log_ok (strlen oldtext) (size newtext) fidx log'.
Proof.
  pose proof INT_MAX_val as HM. pose proof SIZE_MOD_val as HS.
  pose proof INT_MIN_val as Hm.
  assert (Holen : 0 <= strlen oldtext) by (unfold strlen; lia).
  assert (Hnlen : 0 <= size newtext) by apply vec_size_nonneg.
  induction m as [|m IH]; intros fidx rcnt t log Hfidx Hroom Hrcnt Hcnt.
  - destruct Hfidx as [-> | Hfidx]; [| lia].
    exists rcnt, t, []. split; [| split; [simpl; lia | done]].
    intros fuel _. rewrite app_nil_r. by destruct fuel.
  - destruct Hfidx as [-> | (Hf0 & Hf1 & Hmeas)].
    { exists rcnt, t, []. split; [| split; [simpl; lia | done]].
      intros fuel _. rewrite app_nil_r. by destruct fuel. }
    assert (Hsz : 0 <= size t) by apply vec_size_nonneg.
    destruct (erase_ok t fidx (strlen oldtext)) as (t1 & He & _ & Hs1 & _);
      [lia .. |].
    destruct (insert_ok t1 fidx newtext) as (t2 & Hi & _ & Hs2 & _); [lia |].
    set (next := to_size_t (fidx + size newtext - strlen oldtext + 1)).
    destruct (find_spec t2 oldtext next) as (r & Hfind & Hpost);
      [nia | apply to_size_t_range |].
    pose proof (to_size_t_range (fidx + size newtext - strlen oldtext + 1)) as Hnext.
    fold next in Hnext.
    pose proof (find_post_range _ _ _ _ (proj1 Hnext) Hpost) as Hr.
    fold (size t2) in Hr.
    assert (Hr' : r = -1 \/
      (0 <= r /\ r + strlen oldtext <= size t2 /\
       size t2 - r - strlen oldtext < Z.of_nat m)).
    { destruct Hr as [-> | [Hr1 Hr2]]; [by left | right].
      destruct (Z.lt_ge_cases (fidx + size newtext - strlen oldtext + 1) 0).
      - exfalso. subst next. rewrite to_size_t_borrow in Hr1 by nia. nia.
      - subst next. rewrite to_size_t_small in Hr1 by nia. lia. }
    destruct (IH r (rcnt + 1) t2 (log ++ [(fidx, next)]) Hr')
      as (rcnt' & t' & log' & Hrun & Hcount & Hnil & Hlog); [nia | lia | lia |].
    exists rcnt', t', ((fidx, next) :: log').
    split; [| split; [| split]].
    + intros [|fuel] Hfuel; [lia |].
      cbn [replace_loop].
      destruct (Z.geb_spec fidx 0); [| lia].
      rewrite (to_size_t_small fidx) by lia.
      rewrite He. cbn [bind]. rewrite Hi. cbn [bind].
      rewrite to_size_t_sub_l, to_size_t_add_l.
      fold next. rewrite Hfind. cbn [bind].
      unfold int_add. rewrite to_int_small by lia.
      rewrite Hrun by lia. by rewrite <- app_assoc.
    + rewrite Hcount. simpl length. lia.
    + lia.
    + simpl. split; [lia |]. split; [lia |]. split; [lia |].
      split; [reflexivity |].
      destruct Hr as [-> | [Hr1 _]].
      * by rewrite Hnil.
      * exact (log_ok_weaken _ _ _ _ _ Hr1 Hlog).
Qed.

(** * The properties of the buffer *)

(** C1: every mutator is to leave the display cache marked stale.  [erase]
    does not: on the text "ab" with an up-to-date cache, [erase(0, 1)]
    removes the first code point and returns with [m_logok] still set, so
    that [c_str] goes on handing out the display form of "ab". *)
Theorem erase_leaves_cache_valid (encode_utf8 : Z -> list Z) :
  exists t',
    erase (update_logtext encode_utf8 (buf (chars_of "ab"))) 0 1 = Done t' /\
    m_chars t' = chars_of "b" /\
    m_logok t' = true /\
    fst (c_str encode_utf8 t') = spec_display encode_utf8 (chars_of "ab").
Proof.
  rewrite update_logtext_stale by reflexivity.
  eexists. split; [reflexivity |].
  split; [reflexivity |]. split; [reflexivity |].
  unfold c_str. by rewrite update_logtext_valid.
Qed.

(** C2: [rfind] is to return the rightmost occurrence at or below
    [min fromIdx (size - len)], index 0 included.  The downward scan ends
    as soon as the index is 0, without comparing there: in "abc" the
    pattern "ab" occurs at index 0, which is below the bound
    [min 2 (3 - 2)], and [rfind("ab", 2)] returns -1. *)
Theorem rfind_misses_index_zero :
  rfind (buf (chars_of "abc")) (chars_of "ab") 2 = Done (-1) /\
  occurs_at (chars_of "abc") (chars_of "ab") 0 /\
  0 <= Z.min 2 (size (buf (chars_of "abc")) - strlen (chars_of "ab")) /\
  find (buf (chars_of "abc")) (chars_of "ab") 0 = Done 0.
Proof.
  split; [reflexivity |].
  split; [by apply (bool_decide_unpack _) |].
  split; [by vm_compute | reflexivity].
Qed.

(** C6: a rebuild of the display cache that is asked for while the cache
    is stale leaves in it the encoder's output for the code points in
    order, with U+2424 in place of a newline and U+240D in place of a
    carriage return, followed by one zero byte, and marks the cache
    valid; asked for while the cache is valid, it changes nothing. *)
Theorem update_logtext_display (encode_utf8 : Z -> list Z) (t : unc_text) :
  (m_logok t = false ->
   update_logtext encode_utf8 t =
     {| m_chars := m_chars t;
        m_logtext := spec_display encode_utf8 (m_chars t);
        m_logok := true |}) /\
  (m_logok t = true -> update_logtext encode_utf8 t = t).
Proof.
  split.
  - apply update_logtext_stale.
  - apply update_logtext_valid.
Qed.

(** The display form of "a\nb\r" under an encoder that emits the code
    point itself, rebuilt and then requested once more. *)
Lemma update_logtext_display_witness :
  m_logok (buf [97; 10; 98; 13]) = false /\
  update_logtext (fun ch => [ch]) (buf [97; 10; 98; 13]) =
    {| m_chars := [97; 10; 98; 13];
       m_logtext := [97; 9252; 98; 9229; 0];
       m_logok := true |} /\
  m_logok (update_logtext (fun ch => [ch]) (buf [97; 10; 98; 13])) = true /\
  update_logtext (fun ch => [ch])
    (update_logtext (fun ch => [ch]) (buf [97; 10; 98; 13])) =
  update_logtext (fun ch => [ch]) (buf [97; 10; 98; 13]).
Proof.
  split; [reflexivity |].
  split.
  - exact (proj1 (update_logtext_display (fun ch => [ch]) (buf [97; 10; 98; 13]))
             eq_refl).
  - split; [reflexivity |].
    exact (proj2 (update_logtext_display (fun ch => [ch])
                    (update_logtext (fun ch => [ch]) (buf [97; 10; 98; 13])))
             eq_refl).
Defined.

(** C7: on a buffer whose indices fit the [int] result, [find] returns
    the leftmost index at or after [fromIdx] at which the pattern occurs
    (index 0 included), and -1 when the pattern is longer than the buffer
    or occurs at no index at or after [fromIdx].  This holds for every
    pattern, the non-empty ones in particular. *)
Theorem find_leftmost_occurrence (t : unc_text) (text : list Z) (sidx : Z) :
  in_size_t sidx -> size t <= INT_MAX ->
  exists r, find t text sidx = Done r /\
    (size t < strlen text -> r = -1) /\
    ((forall i : nat, sidx <= Z.of_nat i -> ~ occurs_at (m_chars t) text i) ->
     r = -1) /\
    (forall i : nat, sidx <= Z.of_nat i -> occurs_at (m_chars t) text i ->
       sidx <= r <= Z.of_nat i /\ occurs_at (m_chars t) text (Z.to_nat r)) /\
    (sidx = 0 -> occurs_at (m_chars t) text 0 -> r = 0).
Proof.
  intros Hsidx Hsz.
  destruct (find_spec t text sidx Hsz Hsidx) as (r & Hr & Hpost).
  exists r. split; [exact Hr |].
  assert (Hnone : (forall i : nat, sidx <= Z.of_nat i ->
                     ~ occurs_at (m_chars t) text i) -> r = -1).
  { intros Hno. destruct Hpost as [[-> _] | (Hle & Hocc & _)]; [reflexivity |].
    exfalso. apply (Hno (Z.to_nat r)); [| exact Hocc].
    destruct Hsidx. lia. }
  assert (Hleft : forall i : nat, sidx <= Z.of_nat i ->
            occurs_at (m_chars t) text i ->
            sidx <= r <= Z.of_nat i /\ occurs_at (m_chars t) text (Z.to_nat r)).
  { intros i Hi Hocc.
    destruct Hpost as [[-> Hno] | (Hle & Hocc' & Hmin)].
    - exfalso. exact (Hno i Hi Hocc).
    - split; [| exact Hocc']. split; [exact Hle |].
      destruct (Z.lt_ge_cases (Z.of_nat i) r) as [Hlt|]; [| lia].
      exfalso. apply (Hmin i); [lia | exact Hocc]. }
  split; [| split; [exact Hnone | split; [exact Hleft |]]].
  - intros Hshort. apply Hnone. intros i _ Hocc.
    apply occurs_at_bound in Hocc. fold (size t) in Hocc. lia.
  - intros -> Hocc. destruct (Hleft 0%nat) as [H _]; [lia | exact Hocc | lia].
Qed.

(** "an" in "banana" from index 2 on is found at index 3. *)
Lemma find_leftmost_occurrence_witness :
  in_size_t 2 /\ size (buf (chars_of "banana")) <= INT_MAX /\
  exists r, find (buf (chars_of "banana")) (chars_of "an") 2 = Done r /\
    (size (buf (chars_of "banana")) < strlen (chars_of "an") -> r = -1) /\
    ((forall i : nat, 2 <= Z.of_nat i ->
        ~ occurs_at (m_chars (buf (chars_of "banana"))) (chars_of "an") i) ->
     r = -1) /\
    (forall i : nat, 2 <= Z.of_nat i ->
       occurs_at (m_chars (buf (chars_of "banana"))) (chars_of "an") i ->
       2 <= r <= Z.of_nat i /\
       occurs_at (m_chars (buf (chars_of "banana"))) (chars_of "an") (Z.to_nat r)) /\
    (2 = 0 -> occurs_at (m_chars (buf (chars_of "banana"))) (chars_of "an") 0 ->
     r = 0).
Proof.
  assert (H2 : in_size_t 2) by (by vm_compute).
  assert (H3 : size (buf (chars_of "banana")) <= INT_MAX) by (by vm_compute).
  split; [exact H2 |]. split; [exact H3 |].
  exact (find_leftmost_occurrence (buf (chars_of "banana")) (chars_of "an") 2
           H2 H3).
Defined.

(** C9: [insert(idx, p)] with [idx] in [0, size], followed by
    [erase(idx, n)] with [n] the length of [p], gives back the code-point
    sequence the buffer had before. *)
Theorem insert_erase_roundtrip (s p : unc_text) (idx : Z) :
  0 <= idx <= size s ->
  exists s1 s2,
    insert s idx p = Done s1 /\
    erase s1 idx (size p) = Done s2 /\
    m_chars s2 = m_chars s.
Proof.
  intros Hidx.
  destruct (insert_ok s idx p Hidx) as (s1 & Hins & Hchars1 & Hsize1 & _).
  destruct (erase_ok s1 idx (size p)) as (s2 & Hera & Hchars2 & _);
    [lia | apply vec_size_nonneg | pose proof (vec_size_nonneg (m_chars p)); unfold size in *; lia |].
  exists s1, s2. split; [exact Hins |]. split; [exact Hera |].
  rewrite Hchars2, Hchars1. by apply vec_erase_inserted.
Qed.

(** "XY" inserted into "abcd" at index 2 and erased again. *)
Lemma insert_erase_roundtrip_witness :
  0 <= 2 <= size (buf (chars_of "abcd")) /\
  exists s1 s2,
    insert (buf (chars_of "abcd")) 2 (buf (chars_of "XY")) = Done s1 /\
    erase s1 2 (size (buf (chars_of "XY"))) = Done s2 /\
    m_chars s2 = m_chars (buf (chars_of "abcd")).
Proof.
  assert (H : 0 <= 2 <= size (buf (chars_of "abcd"))) by (by vm_compute).
  split; [exact H |].
  exact (insert_erase_roundtrip (buf (chars_of "abcd")) (buf (chars_of "XY")) 2 H).
Defined.

(** C10: [rfind] returns whenever the pattern is not longer than the
    buffer.  It has no early return like the one of [find]: with a longer
    pattern the bound [size() - len] wraps to [size - len + 2^64], and a
    scan that starts at a non-zero index at or beyond the end of the
    buffer reads outside the code-point sequence. *)
Theorem rfind_total_only_if_pattern_fits (t : unc_text) (text : list Z) (sidx : Z) :
  in_size_t sidx -> size t < SIZE_MOD -> strlen text < SIZE_MOD ->
  (strlen text <= size t -> exists r, rfind t text sidx = Done r) /\
  (size t < strlen text ->
     find t text sidx = Done (-1) /\
     to_size_t (size t - strlen text) = size t - strlen text + SIZE_MOD /\
     (Z.max 1 (size t) <= sidx -> rfind t text sidx = Fault)).
Proof.
  intros Hsidx Hsz Hlen. split.
  - intros Hfit.
    destruct (rfind_spec t text sidx Hfit Hsz Hsidx) as (r & Hr & _).
    by exists r.
  - intros Hlong. split; [| split].
    + unfold find. by destruct (Z.ltb_spec (size t) (strlen text)); [| lia].
    + apply to_size_t_borrow.
      pose proof (vec_size_nonneg (m_chars t)). unfold size in *. lia.
    + intros Hstart. by apply rfind_wraps.
Qed.

(** A start index inside the buffer can fault as well: "aaaa" sought in
    "aaa" from index 1 matches up to the end of the buffer and reads on. *)
Example rfind_reads_past_end :
  rfind (buf (chars_of "aaa")) (chars_of "aaaa") 1 = Fault.
Proof. reflexivity. Qed.

(** "aaaa" sought in "aaa" from index 3. *)
Lemma rfind_total_only_if_pattern_fits_witness :
  in_size_t 3 /\ size (buf (chars_of "aaa")) < SIZE_MOD /\
  strlen (chars_of "aaaa") < SIZE_MOD /\
  size (buf (chars_of "aaa")) < strlen (chars_of "aaaa") /\
  Z.max 1 (size (buf (chars_of "aaa"))) <= 3 /\
  rfind (buf (chars_of "aaa")) (chars_of "aaaa") 3 = Fault.
Proof.
  assert (H1 : in_size_t 3) by (by vm_compute).
  assert (H2 : size (buf (chars_of "aaa")) < SIZE_MOD) by (by vm_compute).
  assert (H3 : strlen (chars_of "aaaa") < SIZE_MOD) by (by vm_compute).
  assert (H4 : size (buf (chars_of "aaa")) < strlen (chars_of "aaaa"))
    by (by vm_compute).
  assert (H5 : Z.max 1 (size (buf (chars_of "aaa"))) <= 3) by (by vm_compute).
  split; [exact H1 |]. split; [exact H2 |]. split; [exact H3 |].
  split; [exact H4 |]. split; [exact H5 |].
  exact (proj2 (proj2 (proj2
    (rfind_total_only_if_pattern_fits (buf (chars_of "aaa")) (chars_of "aaaa") 3
       H1 H2 H3) H4)) H5).
Defined.

(** C8: when two buffers whose sizes fit an [int] agree on their common
    prefix and [maxLen] is larger than the shorter size, [compare]
    returns the signed difference of the sizes: negative when [a] is
    shorter, positive when it is longer, 0 when the sizes are equal.  No
    unsigned underflow shows in the result. *)
Theorem compare_length_tiebreak (unc_tolower : Z -> Z) (a b : unc_text) (len : Z) :
  take (Z.to_nat (Z.min (size a) (size b))) (m_chars a) =
    take (Z.to_nat (Z.min (size a) (size b))) (m_chars b) ->
  Z.min (size a) (size b) < len ->
  size a <= INT_MAX -> size b <= INT_MAX ->
  exists r, compare unc_tolower a b len = Done r /\
    r = size a - size b /\
    (size a < size b -> r < 0) /\
    (size a > size b -> r > 0) /\
    (size a = size b -> r = 0).
Proof.
  intros Hagree Hlen Ha Hb.
  pose proof INT_MAX_val as HM. pose proof SIZE_MOD_val as HS.
  pose proof (vec_size_nonneg (m_chars a)) as Ha0.
  pose proof (vec_size_nonneg (m_chars b)) as Hb0.
  fold (size a) in Ha0. fold (size b) in Hb0.
  exists (size a - size b). split; [| lia].
  unfold compare.
  remember (Z.min (size a) (size b)) as common eqn:Hcommon.
  replace (Z.min len common) with common by lia.
  rewrite (compare_loop_skip unc_tolower a b len common); try lia.
  2:{ intros j Hj. apply (agree_of_take _ _ _ Hagree). lia. }
  rewrite compare_loop_exit by lia.
  rewrite compare_tail_diff by lia. reflexivity.
Qed.

(** "ab" against "abc" with a maximal length of 3. *)
Lemma compare_length_tiebreak_witness :
  take (Z.to_nat (Z.min (size (buf (chars_of "ab"))) (size (buf (chars_of "abc")))))
       (m_chars (buf (chars_of "ab"))) =
    take (Z.to_nat (Z.min (size (buf (chars_of "ab"))) (size (buf (chars_of "abc")))))
         (m_chars (buf (chars_of "abc"))) /\
  Z.min (size (buf (chars_of "ab"))) (size (buf (chars_of "abc"))) < 3 /\
  size (buf (chars_of "ab")) <= INT_MAX /\
  size (buf (chars_of "abc")) <= INT_MAX /\
  exists r,
    compare ascii_tolower (buf (chars_of "ab")) (buf (chars_of "abc")) 3 = Done r /\
    r = size (buf (chars_of "ab")) - size (buf (chars_of "abc")) /\
    (size (buf (chars_of "ab")) < size (buf (chars_of "abc")) -> r < 0) /\
    (size (buf (chars_of "ab")) > size (buf (chars_of "abc")) -> r > 0) /\
    (size (buf (chars_of "ab")) = size (buf (chars_of "abc")) -> r = 0).
Proof.
  assert (H1 : take (Z.to_nat (Z.min (size (buf (chars_of "ab")))
                                     (size (buf (chars_of "abc")))))
                    (m_chars (buf (chars_of "ab"))) =
               take (Z.to_nat (Z.min (size (buf (chars_of "ab")))
                                     (size (buf (chars_of "abc")))))
                    (m_chars (buf (chars_of "abc")))) by reflexivity.
  assert (H2 : Z.min (size (buf (chars_of "ab"))) (size (buf (chars_of "abc"))) < 3)
    by (by vm_compute).
  assert (H3 : size (buf (chars_of "ab")) <= INT_MAX) by (by vm_compute).
  assert (H4 : size (buf (chars_of "abc")) <= INT_MAX) by (by vm_compute).
  split; [exact H1 |]. split; [exact H2 |]. split; [exact H3 |].
  split; [exact H4 |].
  exact (compare_length_tiebreak ascii_tolower
           (buf (chars_of "ab")) (buf (chars_of "abc")) 3 H1 H2 H3 H4).
Defined.

(** C3, as amended: at the first position where the two buffers differ,
    when the two code points have the same lowercase form, [compare]
    returns the negated raw difference [-(a[i] - b[i])].  The result is
    negative when the code point of [a] is the larger one, as a lowercase
    letter is against its uppercase form: lowercase sorts first. *)
Theorem compare_case_only_difference (unc_tolower : Z -> Z) (a b : unc_text)
    (len : Z) (i : nat) (ca cb : Z) :
  in_size_t len ->
  Z.of_nat i < Z.min len (Z.min (size a) (size b)) ->
  take i (m_chars a) = take i (m_chars b) ->
  m_chars a !! i = Some ca -> m_chars b !! i = Some cb ->
  ca <> cb -> unc_tolower ca = unc_tolower cb ->
  - INT_MAX <= ca - cb <= INT_MAX ->
  exists r, compare unc_tolower a b len = Done r /\
    r = - (ca - cb) /\
    (cb < ca -> r < 0) /\
    (ca < cb -> 0 < r).
Proof.
  intros Hlen Hi Hagree Hca Hcb Hne Hlow Hdiff.
  pose proof INT_MAX_val as HM. pose proof INT_MIN_val as Hm.
  destruct Hlen as [Hlen0 Hlen1].
  exists (- (ca - cb)). split; [| lia].
  unfold compare.
  remember (Z.min len (Z.min (size a) (size b))) as max_idx eqn:Hmax.
  replace (Z.to_nat max_idx + 1)%nat
    with (i + S (Z.to_nat max_idx - i))%nat by lia.
  rewrite (compare_loop_skip unc_tolower a b len max_idx); try lia.
  2:{ intros j Hj. apply (agree_of_take _ _ _ Hagree). lia. }
  rewrite (compare_loop_differ unc_tolower a b len max_idx _ _ ca cb);
    rewrite ?Z.add_0_l, ?Nat2Z.id; try (lia || assumption).
  cbv zeta. unfold int_sub at 1. rewrite Hlow, Z.sub_diag.
  change (to_int 0 =? 0) with true. cbv iota.
  unfold int_neg, int_sub.
  rewrite (to_int_small (ca - cb)) by lia.
  rewrite to_int_small by lia. reflexivity.
Qed.

(** "Apple" against "apple": the buffers differ at index 0, 'A' against
    'a', and the result is 32. *)
Lemma compare_case_only_difference_witness :
  in_size_t 5 /\
  Z.of_nat 0 < Z.min 5 (Z.min (size (buf (chars_of "Apple")))
                              (size (buf (chars_of "apple")))) /\
  take 0 (m_chars (buf (chars_of "Apple"))) =
    take 0 (m_chars (buf (chars_of "apple"))) /\
  m_chars (buf (chars_of "Apple")) !! 0%nat = Some 65 /\
  m_chars (buf (chars_of "apple")) !! 0%nat = Some 97 /\
  65 <> 97 /\
  ascii_tolower 65 = ascii_tolower 97 /\
  - INT_MAX <= 65 - 97 <= INT_MAX /\
  exists r,
    compare ascii_tolower (buf (chars_of "Apple")) (buf (chars_of "apple")) 5 =
      Done r /\
    r = - (65 - 97) /\ (97 < 65 -> r < 0) /\ (65 < 97 -> 0 < r).
Proof.
  assert (H1 : in_size_t 5) by (by vm_compute).
  assert (H2 : Z.of_nat 0 < Z.min 5 (Z.min (size (buf (chars_of "Apple")))
                                          (size (buf (chars_of "apple")))))
    by (by vm_compute).
  assert (H3 : take 0 (m_chars (buf (chars_of "Apple"))) =
               take 0 (m_chars (buf (chars_of "apple")))) by reflexivity.
  assert (H4 : m_chars (buf (chars_of "Apple")) !! 0%nat = Some 65) by reflexivity.
  assert (H5 : m_chars (buf (chars_of "apple")) !! 0%nat = Some 97) by reflexivity.
  assert (H6 : 65 <> 97) by discriminate.
  assert (H7 : ascii_tolower 65 = ascii_tolower 97) by reflexivity.
  assert (H8 : - INT_MAX <= 65 - 97 <= INT_MAX) by (by vm_compute).
  split; [exact H1 |]. split; [exact H2 |]. split; [exact H3 |].
  split; [exact H4 |]. split; [exact H5 |]. split; [exact H6 |].
  split; [exact H7 |]. split; [exact H8 |].
  exact (compare_case_only_difference ascii_tolower
           (buf (chars_of "Apple")) (buf (chars_of "apple")) 5 0 65 97
           H1 H2 H3 H4 H5 H6 H7 H8).
Defined.

(** C3, as stated, fails on its own example: [compare("Apple", "apple", 5)]
    is 32, not a negative number. *)
Lemma compare_Apple_apple_not_negative :
  compare ascii_tolower (buf (chars_of "Apple")) (buf (chars_of "apple")) 5 =
    Done 32 /\
  ~ (exists r,
       compare ascii_tolower (buf (chars_of "Apple")) (buf (chars_of "apple")) 5 =
         Done r /\ r < 0).
Proof.
  split; [reflexivity |].
  intros (r & Hr & Hneg).
  change (Done 32 = Done r) in Hr. injection Hr as <-. lia.
Qed.

(** C4, as amended: [set(other, start, length)] with [start] at or beyond
    the end of [other] returns without error and leaves exactly [length]
    elements and a stale cache.  When [length] differs from the size of
    [other] and the target was empty before the call, the elements are all
    zero.  When [length] equals the size of [other], they are a copy of
    [other], whatever [start] is.  This holds as well when [other] is the
    target itself. *)
Theorem set_range_start_beyond (t : unc_text) (ref : arg unc_text) (idx len : Z) :
  vec_size (seen (chars_arg ref) (m_chars t)) <= idx -> 0 <= len ->
  exists t', set_range t ref idx len = Done t' /\
    size t' = len /\
    m_logok t' = false /\
    (len <> vec_size (seen (chars_arg ref) (m_chars t)) -> m_chars t = [] ->
       m_chars t' = replicate (Z.to_nat len) 0) /\
    (len = vec_size (seen (chars_arg ref) (m_chars t)) ->
       m_chars t' = seen (chars_arg ref) (m_chars t)).
Proof.
  intros Hidx Hlen.
  destruct (Z.eq_dec len (vec_size (seen (chars_arg ref) (m_chars t))))
    as [->|Hne].
  - rewrite set_range_full. eexists. split; [reflexivity |].
    cbn [m_chars m_logok with_chars size].
    split; [reflexivity |]. split; [reflexivity |].
    split; [contradiction | reflexivity].
  - rewrite set_range_beyond by assumption. eexists. split; [reflexivity |].
    cbn [m_chars m_logok with_chars]. unfold size. cbn [m_chars].
    split; [by apply vec_size_resize |]. split; [reflexivity |].
    split; [| contradiction].
    intros _ ->. apply vec_resize_nil.
Qed.

(** An empty target set from "ab" with start 2 and length 5. *)
Lemma set_range_start_beyond_witness :
  vec_size (seen (chars_arg (Other (buf (chars_of "ab")))) (m_chars (buf []))) <= 2 /\
  0 <= 5 /\
  exists t',
    set_range (buf []) (Other (buf (chars_of "ab"))) 2 5 = Done t' /\
    size t' = 5 /\
    m_logok t' = false /\
    (5 <> vec_size (seen (chars_arg (Other (buf (chars_of "ab")))) (m_chars (buf []))) ->
     m_chars (buf []) = [] ->
       m_chars t' = replicate (Z.to_nat 5) 0) /\
    (5 = vec_size (seen (chars_arg (Other (buf (chars_of "ab")))) (m_chars (buf []))) ->
       m_chars t' = seen (chars_arg (Other (buf (chars_of "ab")))) (m_chars (buf []))).
Proof.
  assert (H1 : vec_size (seen (chars_arg (Other (buf (chars_of "ab"))))
                              (m_chars (buf []))) <= 2) by (by vm_compute).
  assert (H2 : 0 <= 5) by (by vm_compute).
  split; [exact H1 |]. split; [exact H2 |].
  exact (set_range_start_beyond (buf []) (Other (buf (chars_of "ab"))) 2 5 H1 H2).
Defined.

(** C4, as stated, fails where the length equals the size of the source:
    an empty target set from "ab" with start 5 and length 2 becomes a copy
    of "ab", not two zeros. *)
Lemma set_range_not_zero_filled :
  set_range (buf []) (Other (buf (chars_of "ab"))) 5 2 =
    Done (buf (chars_of "ab")) /\
  ~ (exists t',
       set_range (buf []) (Other (buf (chars_of "ab"))) 5 2 = Done t' /\
       m_chars t' = replicate 2 0).
Proof.
  split; [reflexivity |].
  intros (t' & Hset & Hzero).
  change (Done (buf [97; 98]) = Done t') in Hset.
  injection Hset as <-. discriminate Hzero.
Qed.

(** The example of the spec: three replacements, and "bbbnbbnbb". *)
Example replace_banana :
  replace 7 (buf (chars_of "banana")) (chars_of "a") (buf (chars_of "bb")) =
    Done (3, buf (chars_of "bbbnbbnbb"), [(1, 3); (4, 6); (7, 9)]).
Proof. reflexivity. Qed.

(** The spec's own description gives the same on that example. *)
Example spec_replace_banana :
  spec_replace 7 (chars_of "banana") (chars_of "a") (chars_of "bb") 0 =
    (3%nat, chars_of "bbbnbbnbb").
Proof. reflexivity. Qed.

(** C5: after a replacement the search is to resume after the inserted
    text.  [replace] hands [fidx + newtext_size - olen + 1] to the next
    [find], which lies before the end of the inserted text as soon as the
    pattern is longer than one character.  In "abb" with "ab" replaced by
    "a" the search resumes at index 0 and the inserted "a" is matched
    again: two replacements are counted and "a" is left, where searching on
    after the inserted text gives one replacement and "ab".  In "abab"
    with "ab" replaced by the empty text the index wraps to 2^64 - 1 and
    the search ends: one replacement is counted and "ab" is left, where
    two replacements and the empty text are due. *)
Theorem replace_resumes_before_inserted_end :
  replace 4 (buf (chars_of "abb")) (chars_of "ab") (buf (chars_of "a")) =
    Done (2, buf (chars_of "a"), [(0, 0); (0, 0)]) /\
  ~ resumes_after_insert (size (buf (chars_of "a"))) [(0, 0); (0, 0)] /\
  spec_replace 4 (chars_of "abb") (chars_of "ab") (chars_of "a") 0 =
    (1%nat, chars_of "ab") /\
  replace 4 (buf (chars_of "abab")) (chars_of "ab") (buf []) =
    Done (1, buf (chars_of "ab"), [(0, SIZE_MOD - 1)]) /\
  spec_replace 4 (chars_of "abab") (chars_of "ab") [] 0 = (2%nat, []).
Proof.
  split; [reflexivity |].
  split.
  { intros H. apply Forall_cons in H as [H _]. vm_compute in H. by apply H. }
  split; [reflexivity |].
  split; reflexivity.
Qed.

(** * Further properties of the code *)

(** ** [fix_len_idx] and the copy loops *)

Lemma fix_len_idx_value size idx len :
  0 <= size < SIZE_MOD -> 0 <= idx -> 0 <= len ->
  fix_len_idx size idx len =
    if idx <? size then Z.min len (size - idx) else 0.
Proof.
  intros Hsize Hidx Hlen. unfold fix_len_idx.
  destruct (Z.geb_spec idx size), (Z.ltb_spec idx size); try lia;
    try reflexivity.
  rewrite to_size_t_small by lia.
  destruct (Z.gtb_spec len (size - idx)); lia.
Qed.

Lemma seen_insert (src : arg (list Z)) (dst : list Z) (di idx : nat) (x : Z) :
  (src = Self -> (di <= idx)%nat) ->
  drop (S idx) (seen src (<[di:=x]> dst)) = drop (S idx) (seen src dst).
Proof.
  intros Hle. destruct src as [l|]; cbn [seen]; [reflexivity |].
  specialize (Hle eq_refl). apply drop_insert_lt. lia.
Qed.

Lemma seen_insert_size (src : arg (list Z)) (dst : list Z) (di : nat) (x : Z) :
  vec_size (seen src (<[di:=x]> dst)) = vec_size (seen src dst).
Proof.
  destruct src; cbn [seen]; [reflexivity |].
  unfold vec_size. by rewrite length_insert.
Qed.

(** While every access stays inside the vectors, the copy loop moves [n]
    elements of the source, as it is when the loop starts, to the front
    part of the target.  When the source is the target's own vector the
    reads must not fall behind the writes. *)
Lemma copy_loop_spec src : forall (n : nat) di idx dst,
  0 <= di -> 0 <= idx -> (src = Self -> di <= idx) ->
  idx + Z.of_nat n <= vec_size (seen src dst) ->
  vec_size (seen src dst) < SIZE_MOD ->
  di + Z.of_nat n <= vec_size dst -> vec_size dst < SIZE_MOD ->
  copy_loop src n di idx dst =
    Done (take (Z.to_nat di) dst ++ take n (drop (Z.to_nat idx) (seen src dst)) ++
          drop (Z.to_nat di + n) dst).
Proof.
  induction n as [|n IH]; intros di idx dst Hdi Hidx Halias Hsrc Hs Hdst Hd.
  - simpl. by rewrite Nat.add_0_r, take_drop.
  - cbn [copy_loop]. unfold vec_get.
    destruct (seen src dst !! Z.to_nat idx) as [x|] eqn:Hx.
    2:{ apply lookup_ge_None in Hx. unfold vec_size in *. lia. }
    cbn [bind]. unfold vec_set.
    destruct (Z.ltb_spec di (vec_size dst)); [| lia].
    cbn [bind]. rewrite !to_size_t_small by lia.
    pose proof (seen_insert src dst (Z.to_nat di) (Z.to_nat idx) x) as Hdrop.
    specialize (Hdrop ltac:(intros Hself; specialize (Halias Hself); lia)).
    rewrite IH; rewrite ?seen_insert_size; unfold vec_size in *;
      rewrite ?length_insert; try lia;
      try (intros Hself; specialize (Halias Hself); lia).
    f_equal.
    replace (Z.to_nat (di + 1)) with (S (Z.to_nat di)) by lia.
    replace (Z.to_nat (idx + 1)) with (S (Z.to_nat idx)) by lia.
    rewrite Hdrop.
    rewrite (drop_S _ _ _ Hx). cbn [take].
    rewrite (take_S_r _ _ x) by (rewrite list_lookup_insert_eq; [done | lia]).
    rewrite take_insert_ge by lia.
    rewrite drop_insert_lt by lia.
    rewrite <- app_assoc. cbn [app].
    by replace (S (Z.to_nat di) + n)%nat with (Z.to_nat di + S n)%nat by lia.
Qed.

(** When the source is the target's own vector and the loop is to read
    beyond its end, it does: the rounds before that read succeed, and the
    read is out of bounds. *)
Lemma copy_loop_self_fault : forall (n : nat) di idx dst,
  (1 <= n)%nat -> 0 <= di <= idx ->
  vec_size dst < idx + Z.of_nat n -> vec_size dst < SIZE_MOD ->
  copy_loop Self n di idx dst = Fault.
Proof.
  induction n as [|n IH]; intros di idx dst Hn Hdi Hlong Hsz; [lia |].
  cbn [copy_loop seen]. unfold vec_get.
  destruct (dst !! Z.to_nat idx) as [x|] eqn:Hx; [| reflexivity].
  apply lookup_lt_Some in Hx.
  cbn [bind]. unfold vec_set, vec_size in *.
  destruct (Z.ltb_spec di (Z.of_nat (length dst))); [| lia].
  cbn [bind]. rewrite !to_size_t_small by lia.
  apply IH; rewrite ?length_insert; lia.
Qed.

Lemma store_loop_spec : forall ascii_text idx dst,
  0 <= idx ->
  idx + strlen ascii_text <= vec_size dst -> vec_size dst < SIZE_MOD ->
  store_loop ascii_text idx dst =
    Done (take (Z.to_nat idx) dst ++ ascii_text ++
          drop (Z.to_nat idx + length ascii_text) dst).
Proof.
  unfold vec_size, strlen.
  induction ascii_text as [|c rest IH]; intros idx dst Hidx Hfit Hd.
  - simpl. by rewrite Nat.add_0_r, take_drop.
  - cbn [store_loop]. unfold vec_set, vec_size. simpl length in Hfit.
    destruct (Z.ltb_spec idx (Z.of_nat (length dst))); [| lia].
    cbn [bind]. rewrite to_size_t_small by lia.
    rewrite IH by (rewrite ?length_insert; lia).
    f_equal.
    replace (Z.to_nat (idx + 1)) with (S (Z.to_nat idx)) by lia.
    rewrite (take_S_r _ _ c) by (rewrite list_lookup_insert_eq; [done | lia]).
    rewrite take_insert_ge by lia.
    rewrite drop_insert_lt by lia.
    rewrite <- app_assoc. cbn [app length].
    by replace (S (Z.to_nat idx) + length rest)%nat
      with (Z.to_nat idx + S (length rest))%nat by lia.
Qed.

(** X1: for sizes and indices of type [size_t], [fix_len_idx] returns at
    most [len], returns [len] itself when the range fits, returns 0 for a
    start at or beyond [size], and the range it allows, from [idx] on,
    never reaches beyond [size]. *)
Theorem fix_len_idx_bounds (size idx len : Z) :
  0 <= size < SIZE_MOD -> 0 <= idx -> 0 <= len ->
  0 <= fix_len_idx size idx len <= len /\
  (idx <= size -> idx + fix_len_idx size idx len <= size) /\
  (idx + len <= size -> fix_len_idx size idx len = len) /\
  (size <= idx -> fix_len_idx size idx len = 0) /\
  (idx < size -> size < idx + len -> fix_len_idx size idx len = size - idx).
Proof.
  intros Hsize Hidx Hlen.
  rewrite fix_len_idx_value by assumption.
  destruct (Z.ltb_spec idx size); lia.
Qed.

Lemma fix_len_idx_bounds_witness :
  0 <= 5 < SIZE_MOD /\ 0 <= 3 /\ 0 <= 7 /\
  0 <= fix_len_idx 5 3 7 <= 7 /\
  (3 <= 5 -> 3 + fix_len_idx 5 3 7 <= 5) /\
  (3 + 7 <= 5 -> fix_len_idx 5 3 7 = 7) /\
  (5 <= 3 -> fix_len_idx 5 3 7 = 0) /\
  (3 < 5 -> 5 < 3 + 7 -> fix_len_idx 5 3 7 = 5 - 3).
Proof.
  assert (H1 : 0 <= 5 < SIZE_MOD) by (by vm_compute).
  assert (H2 : 0 <= 3) by (by vm_compute).
  assert (H3 : 0 <= 7) by (by vm_compute).
  split; [exact H1 |]. split; [exact H2 |]. split; [exact H3 |].
  exact (fix_len_idx_bounds 5 3 7 H1 H2 H3).
Defined.

(** X2: [set(other, start, length)] with [start] inside [other] and
    [length] different from the size of [other].  The loop is to copy
    [min length (other.size - start)] elements, the size being the one
    [other] had on entry, and it reads [other] after the target was
    resized.  When these reads stay inside what [other] holds after the
    resize, the call leaves exactly [length] elements: the elements of
    [other] from [start] on, followed by what the resized target holds
    behind them (its own old elements, or zeros), with the cache marked
    stale.  When they do not, the call reads out of bounds.  With a buffer
    other than the target the reads always stay inside; with the target
    itself, as in [t.set(t, 1, 2)] on "abc", they need not. *)
Theorem set_range_clamped (t : unc_text) (ref : arg unc_text) (idx len : Z) :
  0 <= idx < vec_size (seen (chars_arg ref) (m_chars t)) ->
  vec_size (seen (chars_arg ref) (m_chars t)) < SIZE_MOD ->
  0 <= len < SIZE_MOD ->
  len <> vec_size (seen (chars_arg ref) (m_chars t)) ->
  (len = 0 \/
   idx + Z.min len (vec_size (seen (chars_arg ref) (m_chars t)) - idx) <=
     vec_size (seen (chars_arg ref) (vec_resize (m_chars t) len)) ->
   exists t', set_range t ref idx len = Done t' /\
     m_chars t' =
       take (Z.to_nat (Z.min len (vec_size (seen (chars_arg ref) (m_chars t)) - idx)))
            (drop (Z.to_nat idx)
                  (seen (chars_arg ref) (vec_resize (m_chars t) len))) ++
       drop (Z.to_nat (Z.min len (vec_size (seen (chars_arg ref) (m_chars t)) - idx)))
            (vec_resize (m_chars t) len) /\
     size t' = len /\
     m_logok t' = false) /\
  (0 < len ->
   vec_size (seen (chars_arg ref) (vec_resize (m_chars t) len)) <
     idx + Z.min len (vec_size (seen (chars_arg ref) (m_chars t)) - idx) ->
   set_range t ref idx len = Fault) /\
  (forall r, ref = Other r ->
     idx + Z.min len (vec_size (seen (chars_arg ref) (m_chars t)) - idx) <=
       vec_size (seen (chars_arg ref) (vec_resize (m_chars t) len))).
Proof.
  intros Hidx Href Hlen Hne.
  remember (vec_size (seen (chars_arg ref) (m_chars t))) as rs eqn:Hrs.
  pose proof (vec_size_resize (m_chars t) len ltac:(lia)) as Hsz.
  assert (Hunfold : set_range t ref idx len =
    let* chars := copy_loop (chars_arg ref) (Z.to_nat (Z.min len (rs - idx))) 0 idx
                    (vec_resize (m_chars t) len) in
    Done (with_chars t chars false)).
  { unfold set_range. rewrite <- Hrs.
    destruct (Z.eqb_spec len rs); [contradiction |].
    rewrite fix_len_idx_value by lia.
    destruct (Z.ltb_spec idx rs); [reflexivity | lia]. }
  split; [| split].
  - intros Hsafe.
    assert (Hrun : copy_loop (chars_arg ref) (Z.to_nat (Z.min len (rs - idx))) 0 idx
                     (vec_resize (m_chars t) len) =
      Done (take (Z.to_nat (Z.min len (rs - idx)))
                 (drop (Z.to_nat idx)
                       (seen (chars_arg ref) (vec_resize (m_chars t) len))) ++
            drop (Z.to_nat (Z.min len (rs - idx))) (vec_resize (m_chars t) len))).
    { destruct (Z.eq_dec len 0) as [Hzero|Hpos].
      - replace (Z.min len (rs - idx)) with 0 by lia. reflexivity.
      - destruct Hsafe as [? | Hsafe]; [lia |].
        rewrite copy_loop_spec; try lia; [reflexivity |].
        destruct ref as [r|]; cbn [chars_arg seen] in *; lia. }
    rewrite Hunfold, Hrun. cbn [bind].
    eexists. split; [reflexivity |]. cbn [m_chars m_logok with_chars].
    split; [reflexivity |]. split; [| reflexivity].
    unfold size. cbn [m_chars with_chars].
    destruct (Z.eq_dec len 0) as [Hzero|Hpos].
    + replace (Z.min len (rs - idx)) with 0 by lia.
      rewrite take_0, drop_0. cbn [app]. exact Hsz.
    + destruct Hsafe as [? | Hsafe]; [lia |].
      unfold vec_size in *.
      rewrite length_app, length_take, !length_drop. lia.
  - intros Hpos Hlong. rewrite Hunfold.
    destruct ref as [r|]; cbn [chars_arg seen] in *; [lia |].
    rewrite copy_loop_self_fault; [reflexivity | lia | lia | lia | lia].
  - intros r ->. cbn [chars_arg seen] in *. lia.
Qed.

(** The aliased call [t.set(t, 1, 2)] on "abc" reads the third element of
    a vector that was just cut to two. *)
Example set_range_self_reads_past_end :
  set_range (buf (chars_of "abc")) Self 1 2 = Fault.
Proof. reflexivity. Qed.

(** The empty target set from "abcdef" with start 4 and length 5: "ef"
    and three zeros. *)
Lemma set_range_clamped_witness :
  0 <= 4 < vec_size (seen (chars_arg (Other (buf (chars_of "abcdef")))) (m_chars (buf []))) /\
  vec_size (seen (chars_arg (Other (buf (chars_of "abcdef")))) (m_chars (buf [])))
    < SIZE_MOD /\
  0 <= 5 < SIZE_MOD /\
  5 <> vec_size (seen (chars_arg (Other (buf (chars_of "abcdef")))) (m_chars (buf []))) /\
  exists t', set_range (buf []) (Other (buf (chars_of "abcdef"))) 4 5 = Done t' /\
    m_chars t' = [101; 102; 0; 0; 0] /\
    size t' = 5 /\
    m_logok t' = false.
Proof.
  assert (H1 : 0 <= 4 < vec_size (seen (chars_arg (Other (buf (chars_of "abcdef"))))
                                       (m_chars (buf [])))) by (by vm_compute).
  assert (H2 : vec_size (seen (chars_arg (Other (buf (chars_of "abcdef"))))
                              (m_chars (buf []))) < SIZE_MOD) by (by vm_compute).
  assert (H3 : 0 <= 5 < SIZE_MOD) by (by vm_compute).
  assert (H4 : 5 <> vec_size (seen (chars_arg (Other (buf (chars_of "abcdef"))))
                                   (m_chars (buf [])))) by (by vm_compute).
  split; [exact H1 |]. split; [exact H2 |]. split; [exact H3 |].
  split; [exact H4 |].
  apply (proj1 (set_range_clamped (buf []) (Other (buf (chars_of "abcdef"))) 4 5
                  H1 H2 H3 H4)).
  right. by vm_compute.
Defined.

(** X3: [set(data, start, length)] never reads or writes out of bounds,
    whatever the start index, also when [data] is the target's own vector.
    It resizes the target first and takes the size of [data] after that.
    It leaves exactly [length] elements: the elements of [data], as it is
    after the resize, that [fix_len_idx] allows, followed by what the
    resized target holds behind them; the cache is marked stale.  Nothing
    is copied when [start] is at or beyond that size.  Unlike the buffer
    overload it has no full-copy case. *)
Theorem set_data_clamped (t : unc_text) (data : arg (list Z)) (idx len : Z) :
  0 <= idx ->
  vec_size (seen data (vec_resize (m_chars t) len)) < SIZE_MOD ->
  0 <= len < SIZE_MOD ->
  exists t', set_data t data idx len = Done t' /\
    m_chars t' =
      take (Z.to_nat (fix_len_idx (vec_size (seen data (vec_resize (m_chars t) len)))
                                  idx len))
           (drop (Z.to_nat idx) (seen data (vec_resize (m_chars t) len))) ++
      drop (Z.to_nat (fix_len_idx (vec_size (seen data (vec_resize (m_chars t) len)))
                                  idx len))
           (vec_resize (m_chars t) len) /\
    size t' = len /\
    m_logok t' = false /\
    (vec_size (seen data (vec_resize (m_chars t) len)) <= idx ->
     m_chars t' = vec_resize (m_chars t) len).
Proof.
  intros Hidx Hdata Hlen.
  remember (seen data (vec_resize (m_chars t) len)) as src eqn:Hsrc.
  pose proof (vec_size_nonneg src) as Hd0.
  pose proof (vec_size_resize (m_chars t) len ltac:(lia)) as Hsz.
  pose proof (fix_len_idx_value (vec_size src) idx len ltac:(lia) Hidx ltac:(lia))
    as Hfix.
  assert (Hk : 0 <= fix_len_idx (vec_size src) idx len <= len /\
               (fix_len_idx (vec_size src) idx len = 0 \/
                idx + fix_len_idx (vec_size src) idx len <= vec_size src)).
  { rewrite Hfix. destruct (Z.ltb_spec idx (vec_size src)); lia. }
  assert (Hrun : set_data t data idx len =
    Done (with_chars t
      (take (Z.to_nat (fix_len_idx (vec_size src) idx len))
            (drop (Z.to_nat idx) src) ++
       drop (Z.to_nat (fix_len_idx (vec_size src) idx len))
            (vec_resize (m_chars t) len)) false)).
  { unfold set_data. rewrite <- Hsrc.
    destruct Hk as [Hk [Hz | Hfit]].
    - rewrite Hz. reflexivity.
    - rewrite copy_loop_spec; rewrite <- ?Hsrc; try lia.
      reflexivity. }
  eexists. split; [exact Hrun |]. cbn [m_chars m_logok with_chars].
  split; [reflexivity |]. split; [| split; [reflexivity |]].
  - unfold size, vec_size in *. cbn [m_chars with_chars].
    rewrite length_app, length_take, !length_drop. lia.
  - intros Hbeyond. rewrite fix_len_idx_beyond by exact Hbeyond. reflexivity.
Qed.

(** The aliased calls [t.set(t.get(), 3, 5)] and [t.set(t.get(), 1, 2)] on
    "abc": the zeros of the resize are copied to the front, and the second
    element is copied onto the first. *)
Example set_data_self_examples :
  set_data (buf (chars_of "abc")) Self 3 5 = Done (buf [0; 0; 99; 0; 0]) /\
  set_data (buf (chars_of "abc")) Self 1 2 = Done (buf (chars_of "bb")) /\
  set_data (buf (chars_of "abc")) (Other (chars_of "abc")) 1 2 =
    Done (buf (chars_of "bc")).
Proof. repeat split. Qed.

(** The target "abc" set from its own vector with start 3 and length 5. *)
Lemma set_data_clamped_witness :
  0 <= 3 /\
  vec_size (seen Self (vec_resize (m_chars (buf (chars_of "abc"))) 5)) < SIZE_MOD /\
  0 <= 5 < SIZE_MOD /\
  exists t', set_data (buf (chars_of "abc")) Self 3 5 = Done t' /\
    m_chars t' =
      take (Z.to_nat (fix_len_idx
                        (vec_size (seen Self (vec_resize (m_chars (buf (chars_of "abc"))) 5)))
                        3 5))
           (drop (Z.to_nat 3) (seen Self (vec_resize (m_chars (buf (chars_of "abc"))) 5))) ++
      drop (Z.to_nat (fix_len_idx
                        (vec_size (seen Self (vec_resize (m_chars (buf (chars_of "abc"))) 5)))
                        3 5))
           (vec_resize (m_chars (buf (chars_of "abc"))) 5) /\
    size t' = 5 /\
    m_logok t' = false /\
    (vec_size (seen Self (vec_resize (m_chars (buf (chars_of "abc"))) 5)) <= 3 ->
     m_chars t' = vec_resize (m_chars (buf (chars_of "abc"))) 5).
Proof.
  assert (H1 : 0 <= 3) by (by vm_compute).
  assert (H2 : vec_size (seen Self (vec_resize (m_chars (buf (chars_of "abc"))) 5))
               < SIZE_MOD) by (by vm_compute).
  assert (H3 : 0 <= 5 < SIZE_MOD) by (by vm_compute).
  split; [exact H1 |]. split; [exact H2 |]. split; [exact H3 |].
  exact (set_data_clamped (buf (chars_of "abc")) Self 3 5 H1 H2 H3).
Defined.

(** X4: [set(ascii_text)] never writes out of bounds and leaves exactly
    the characters of the string, whatever the target held before; the
    cache is marked stale. *)
Theorem set_string_result (t : unc_text) (ascii_text : list Z) :
  strlen ascii_text < SIZE_MOD ->
  set_string t ascii_text = Done (with_chars t ascii_text false).
Proof.
  intros Hlen. unfold set_string.
  assert (0 <= strlen ascii_text) by (unfold strlen; lia).
  rewrite store_loop_spec; rewrite ?vec_size_resize; try lia.
  cbn [bind]. do 2 f_equal.
  rewrite take_0. cbn [app].
  rewrite drop_ge, app_nil_r; [reflexivity |].
  pose proof (vec_size_resize (m_chars t) (strlen ascii_text) ltac:(lia)) as Hsz.
  unfold vec_size, strlen in *. lia.
Qed.

(** The target "banana" set from the string "ab". *)
Lemma set_string_result_witness :
  strlen (chars_of "ab") < SIZE_MOD /\
  set_string (buf (chars_of "banana")) (chars_of "ab") =
    Done (with_chars (buf (chars_of "banana")) (chars_of "ab") false).
Proof.
  assert (H : strlen (chars_of "ab") < SIZE_MOD) by (by vm_compute).
  split; [exact H |].
  exact (set_string_result (buf (chars_of "banana")) (chars_of "ab") H).
Defined.

(** ** [equals] and [startswith] *)

Lemma equals_loop_spec t ref : forall (fuel : nat) idx,
  size ref = size t -> size t < SIZE_MOD ->
  0 <= idx <= size t ->
  (Z.to_nat (size t - idx) < fuel)%nat ->
  equals_loop t ref (size t) fuel idx =
    Done (bool_decide (drop (Z.to_nat idx) (m_chars t) =
                       drop (Z.to_nat idx) (m_chars ref))).
Proof.
  unfold size, vec_size.
  induction fuel as [|fuel IH]; intros idx Hsame Hsz Hidx Hfuel; [lia |].
  cbn [equals_loop].
  destruct (Z.ltb_spec idx (Z.of_nat (length (m_chars t)))) as [Hlt|Hge].
  - unfold vec_get.
    destruct (m_chars t !! Z.to_nat idx) as [c1|] eqn:H1.
    2:{ apply lookup_ge_None in H1. lia. }
    destruct (m_chars ref !! Z.to_nat idx) as [c2|] eqn:H2.
    2:{ apply lookup_ge_None in H2. lia. }
    cbn [bind].
    rewrite (drop_S _ _ _ H1), (drop_S _ _ _ H2).
    destruct (Z.eqb_spec c1 c2) as [->|Hne]; cbn [negb].
    + rewrite to_size_t_small by lia.
      rewrite IH by lia.
      replace (Z.to_nat (idx + 1)) with (S (Z.to_nat idx)) by lia.
      f_equal. apply bool_decide_ext. split; [congruence |].
      intros [= ->]. reflexivity.
    + rewrite bool_decide_eq_false_2; [reflexivity |]. congruence.
  - rewrite !drop_ge by lia.
    by rewrite bool_decide_eq_true_2.
Qed.

(** X5: [equals] never reads out of bounds and returns true exactly when
    the two code-point sequences are the same, element for element and
    in length; so it is reflexive and symmetric. *)
Theorem equals_decides_equality (t ref : unc_text) :
  size t < SIZE_MOD ->
  equals t ref = Done (bool_decide (m_chars t = m_chars ref)).
Proof.
  intros Hsz. unfold equals.
  destruct (Z.eqb_spec (size ref) (size t)) as [Hsame|Hdiff]; cbn [negb].
  - pose proof (vec_size_nonneg (m_chars t)). fold (size t) in *.
    rewrite equals_loop_spec by lia.
    reflexivity.
  - rewrite bool_decide_eq_false_2; [reflexivity |].
    intros Heq. apply Hdiff. unfold size. by rewrite Heq.
Qed.

(** "abc" against "abd". *)
Lemma equals_decides_equality_witness :
  size (buf (chars_of "abc")) < SIZE_MOD /\
  equals (buf (chars_of "abc")) (buf (chars_of "abd")) =
    Done (bool_decide (m_chars (buf (chars_of "abc")) = m_chars (buf (chars_of "abd")))).
Proof.
  assert (H : size (buf (chars_of "abc")) < SIZE_MOD) by (by vm_compute).
  split; [exact H |].
  exact (equals_decides_equality (buf (chars_of "abc")) (buf (chars_of "abd")) H).
Defined.

Lemma startswith_cstr_loop_spec t orig_idx : forall text idx,
  0 <= orig_idx <= idx -> size t < SIZE_MOD ->
  (orig_idx < idx -> idx <= size t) ->
  startswith_cstr_loop t orig_idx text idx =
    Done (bool_decide ((idx <> orig_idx \/ text <> []) /\
                       occurs_at (m_chars t) text (Z.to_nat idx))).
Proof.
  unfold size, vec_size.
  induction text as [|c text IH]; intros idx Hidx Hsz Hin.
  - cbn [startswith_cstr_loop]. f_equal. rewrite andb_true_r.
    destruct (Z.eqb_spec idx orig_idx) as [->|Hne]; cbn [negb].
    + rewrite bool_decide_eq_false_2; [reflexivity |]. intros [[?|?] _]; done.
    + rewrite bool_decide_eq_true_2; [reflexivity |].
      split; [by left |]. apply occurs_at_nil. lia.
  - cbn [startswith_cstr_loop]. unfold size, vec_size.
    destruct (Z.ltb_spec idx (Z.of_nat (length (m_chars t)))) as [Hlt|Hge].
    + unfold vec_get.
      destruct (m_chars t !! Z.to_nat idx) as [x|] eqn:Hx.
      2:{ apply lookup_ge_None in Hx. lia. }
      cbn [bind].
      destruct (Z.eqb_spec c x) as [->|Hne]; cbn [negb].
      * rewrite to_size_t_small by lia.
        rewrite IH by lia.
        replace (Z.to_nat (idx + 1)) with (S (Z.to_nat idx)) by lia.
        f_equal. apply bool_decide_ext. rewrite occurs_at_cons.
        split.
        -- intros [_ Hocc]. split; [by right |]. by split.
        -- intros [_ [_ Hocc]]. split; [left; lia | exact Hocc].
      * rewrite bool_decide_eq_false_2; [reflexivity |].
        rewrite occurs_at_cons. intros [_ [H _]]. congruence.
    + rewrite andb_false_r.
      rewrite bool_decide_eq_false_2; [reflexivity |].
      intros [_ [Hfit _]]. simpl in Hfit. lia.
Qed.

Lemma startswith_cstr_run (t : unc_text) (text : list Z) (idx : Z) :
  0 <= idx -> size t < SIZE_MOD ->
  startswith_cstr t text idx =
    Done (bool_decide (text <> [] /\ occurs_at (m_chars t) text (Z.to_nat idx))).
Proof.
  intros Hidx Hsz. unfold startswith_cstr.
  rewrite startswith_cstr_loop_spec by lia.
  f_equal. apply bool_decide_ext. split.
  - intros [[?|?] ?]; done.
  - intros [? ?]. split; [by right | done].
Qed.

(** X6: [startswith] with a C string never reads out of bounds and
    returns true exactly when the pattern is not empty and occurs in the
    buffer at [idx]; an empty pattern, a start at or beyond the end and
    a pattern that reaches beyond the end all give false. *)
Theorem startswith_cstr_decides (t : unc_text) (text : list Z) (idx : Z) :
  0 <= idx -> size t < SIZE_MOD ->
  startswith_cstr t text idx =
    Done (bool_decide (text <> [] /\ occurs_at (m_chars t) text (Z.to_nat idx))).
Proof.
  intros Hidx Hsz. unfold startswith_cstr.
  rewrite startswith_cstr_loop_spec by lia.
  f_equal. apply bool_decide_ext. split.
  - intros [[Hmoved | Hne] Hocc]; [lia | by split].
  - intros [Hne Hocc]. split; [by right | exact Hocc].
Qed.

(** "nan" in "banana" at index 2. *)
Lemma startswith_cstr_decides_witness :
  0 <= 2 /\ size (buf (chars_of "banana")) < SIZE_MOD /\
  startswith_cstr (buf (chars_of "banana")) (chars_of "nan") 2 =
    Done (bool_decide (chars_of "nan" <> [] /\
            occurs_at (m_chars (buf (chars_of "banana"))) (chars_of "nan")
                      (Z.to_nat 2))).
Proof.
  assert (H1 : 0 <= 2) by (by vm_compute).
  assert (H2 : size (buf (chars_of "banana")) < SIZE_MOD) by (by vm_compute).
  split; [exact H1 |]. split; [exact H2 |].
  exact (startswith_cstr_decides (buf (chars_of "banana")) (chars_of "nan") 2 H1 H2).
Defined.

Lemma startswith_loop_spec t text orig_idx : forall (fuel : nat) idx si,
  0 <= orig_idx -> idx = orig_idx + si -> 0 <= si <= size text ->
  size t < SIZE_MOD -> size text < SIZE_MOD ->
  (0 < si -> idx <= size t) ->
  (Z.to_nat (size text - si) < fuel)%nat ->
  startswith_loop t text orig_idx fuel idx si =
    Done (bool_decide ((si <> 0 \/ m_chars text <> []) /\
            occurs_at (m_chars t) (drop (Z.to_nat si) (m_chars text))
                      (Z.to_nat idx))).
Proof.
  unfold size, vec_size.
  induction fuel as [|fuel IH]; intros idx si Horig Hidx Hsi Hsz Hsz' Hin Hfuel;
    [lia |].
  cbn [startswith_loop]. unfold size, vec_size.
  destruct (Z.ltb_spec idx (Z.of_nat (length (m_chars t)))) as [Hlt|Hge];
    destruct (Z.ltb_spec si (Z.of_nat (length (m_chars text)))) as [Hlt'|Hge'];
    cbn [andb].
  - unfold vec_get.
    destruct (m_chars text !! Z.to_nat si) as [c|] eqn:Hc.
    2:{ apply lookup_ge_None in Hc. lia. }
    destruct (m_chars t !! Z.to_nat idx) as [x|] eqn:Hx.
    2:{ apply lookup_ge_None in Hx. lia. }
    cbn [bind]. rewrite (drop_S _ _ _ Hc).
    destruct (Z.eqb_spec c x) as [->|Hne]; cbn [negb].
    + rewrite !to_size_t_small by lia.
      rewrite IH by lia.
      replace (Z.to_nat (idx + 1)) with (S (Z.to_nat idx)) by lia.
      replace (Z.to_nat (si + 1)) with (S (Z.to_nat si)) by lia.
      f_equal. apply bool_decide_ext. rewrite occurs_at_cons.
      split.
      * intros [_ Hocc]. split; [| by split].
        right. intros Hnil. by rewrite Hnil in Hc.
      * intros [_ [_ Hocc]]. split; [left; lia | exact Hocc].
    + rewrite bool_decide_eq_false_2; [reflexivity |].
      rewrite occurs_at_cons. intros [_ [H _]]. congruence.
  - assert (Hend : si = Z.of_nat (length (m_chars text))) by lia.
    rewrite drop_ge by lia. f_equal.
    destruct (Z.eqb_spec si (Z.of_nat (length (m_chars text)))); [| lia].
    rewrite andb_true_r.
    destruct (Z.eqb_spec idx orig_idx) as [Heq|Hne]; cbn [negb].
    + rewrite bool_decide_eq_false_2; [reflexivity |].
      intros [[H|H] _]; [lia |].
      apply H. apply length_zero_iff_nil. lia.
    + rewrite bool_decide_eq_true_2; [reflexivity |].
      split; [left; lia |]. apply occurs_at_nil. lia.
  - f_equal.
    destruct (Z.eqb_spec si (Z.of_nat (length (m_chars text)))); [lia |].
    rewrite andb_false_r.
    rewrite bool_decide_eq_false_2; [reflexivity |].
    intros [_ [Hfit _]]. rewrite length_drop in Hfit. lia.
  - assert (Hend : si = Z.of_nat (length (m_chars text))) by lia.
    rewrite drop_ge by lia. f_equal.
    destruct (Z.eqb_spec si (Z.of_nat (length (m_chars text)))); [| lia].
    rewrite andb_true_r.
    destruct (Z.eqb_spec idx orig_idx) as [Heq|Hne]; cbn [negb].
    + rewrite bool_decide_eq_false_2; [reflexivity |].
      intros [[H|H] _]; [lia |].
      apply H. apply length_zero_iff_nil. lia.
    + rewrite bool_decide_eq_true_2; [reflexivity |].
      split; [left; lia |]. apply occurs_at_nil. lia.
Qed.

(** X7: [startswith] with a buffer as pattern never reads out of bounds
    and returns true exactly when the pattern is not empty and occurs in
    the buffer at [idx]; it agrees with the C string overload on the same
    characters. *)
Theorem startswith_decides (t text : unc_text) (idx : Z) :
  0 <= idx -> size t < SIZE_MOD -> size text < SIZE_MOD ->
  startswith t text idx =
    Done (bool_decide (m_chars text <> [] /\
            occurs_at (m_chars t) (m_chars text) (Z.to_nat idx))) /\
  startswith t text idx = startswith_cstr t (m_chars text) idx.
Proof.
  intros Hidx Hsz Hsz'.
  pose proof (vec_size_nonneg (m_chars text)) as Hn. fold (size text) in Hn.
  assert (Hrun : startswith t text idx =
    Done (bool_decide (m_chars text <> [] /\
            occurs_at (m_chars t) (m_chars text) (Z.to_nat idx)))).
  { unfold startswith.
    rewrite startswith_loop_spec by lia.
    f_equal. apply bool_decide_ext. rewrite drop_0. split.
    - intros [[?|?] ?]; done.
    - intros [? ?]. split; [by right | done]. }
  split; [exact Hrun |].
  rewrite Hrun. symmetry. by apply startswith_cstr_run.
Qed.

(** "nan" in "banana" at index 2. *)
Lemma startswith_decides_witness :
  0 <= 2 /\ size (buf (chars_of "banana")) < SIZE_MOD /\
  size (buf (chars_of "nan")) < SIZE_MOD /\
  startswith (buf (chars_of "banana")) (buf (chars_of "nan")) 2 =
    Done (bool_decide (m_chars (buf (chars_of "nan")) <> [] /\
            occurs_at (m_chars (buf (chars_of "banana")))
                      (m_chars (buf (chars_of "nan"))) (Z.to_nat 2))) /\
  startswith (buf (chars_of "banana")) (buf (chars_of "nan")) 2 =
    startswith_cstr (buf (chars_of "banana")) (m_chars (buf (chars_of "nan"))) 2.
Proof.
  assert (H1 : 0 <= 2) by (by vm_compute).
  assert (H2 : size (buf (chars_of "banana")) < SIZE_MOD) by (by vm_compute).
  assert (H3 : size (buf (chars_of "nan")) < SIZE_MOD) by (by vm_compute).
  split; [exact H1 |]. split; [exact H2 |]. split; [exact H3 |].
  exact (startswith_decides (buf (chars_of "banana")) (buf (chars_of "nan")) 2
           H1 H2 H3).
Defined.

(** X8: on a buffer whose indices fit the [int] result, a non-empty
    pattern and a start index of type [size_t], what [find] returns is
    either -1 or an index at which [startswith] holds, and [startswith]
    fails at every index from the start index up to the result. *)
Theorem find_agrees_with_startswith (t : unc_text) (text : list Z) (sidx : Z) :
  text <> [] -> in_size_t sidx -> size t <= INT_MAX ->
  exists r, find t text sidx = Done r /\
    (r = -1 \/ (sidx <= r /\ startswith_cstr t text r = Done true)) /\
    (forall i, sidx <= i -> (i < r \/ r = -1) ->
       startswith_cstr t text i = Done false).
Proof.
  intros Hne [Hs0 Hs1] Hsz.
  pose proof INT_MAX_val as HM. pose proof SIZE_MOD_val as HS.
  destruct (find_spec t text sidx Hsz (conj Hs0 Hs1)) as (r & Hr & Hpost).
  exists r. split; [exact Hr |].
  destruct Hpost as [[-> Hnone] | (Hle & Hocc & Hleft)].
  - split; [by left |]. intros i Hi _.
    rewrite startswith_cstr_run by lia.
    rewrite bool_decide_eq_false_2; [reflexivity |].
    intros [_ Hocc]. apply (Hnone (Z.to_nat i)); [lia | exact Hocc].
  - split.
    + right. split; [exact Hle |].
      rewrite startswith_cstr_run by lia.
      by rewrite bool_decide_eq_true_2.
    + intros i Hi [Hlt | ->]; [| lia].
      rewrite startswith_cstr_run by lia.
      rewrite bool_decide_eq_false_2; [reflexivity |].
      intros [_ Hocc']. apply (Hleft (Z.to_nat i)); [lia | exact Hocc'].
Qed.

(** "an" in "banana" from index 2 on. *)
Lemma find_agrees_with_startswith_witness :
  chars_of "an" <> [] /\ in_size_t 2 /\ size (buf (chars_of "banana")) <= INT_MAX /\
  exists r, find (buf (chars_of "banana")) (chars_of "an") 2 = Done r /\
    (r = -1 \/
     (2 <= r /\
      startswith_cstr (buf (chars_of "banana")) (chars_of "an") r = Done true)) /\
    (forall i, 2 <= i -> (i < r \/ r = -1) ->
       startswith_cstr (buf (chars_of "banana")) (chars_of "an") i = Done false).
Proof.
  assert (H1 : chars_of "an" <> []) by discriminate.
  assert (H2 : in_size_t 2) by (by vm_compute).
  assert (H3 : size (buf (chars_of "banana")) <= INT_MAX) by (by vm_compute).
  split; [exact H1 |]. split; [exact H2 |]. split; [exact H3 |].
  exact (find_agrees_with_startswith (buf (chars_of "banana")) (chars_of "an") 2
           H1 H2 H3).
Defined.

(** ** [rfind] on a pattern that fits *)

(** X9: on a buffer whose indices fit the [int] result and a pattern not
    longer than the buffer, [rfind] returns the rightmost index between 1
    and [min sidx (size - len)] at which the pattern occurs, and -1 when
    it occurs at none of them.  It never returns 0: an occurrence at index
    0 is not looked at. *)
Theorem rfind_rightmost_from_one (t : unc_text) (text : list Z) (sidx : Z) :
  strlen text <= size t -> size t <= INT_MAX -> in_size_t sidx ->
  exists r, rfind t text sidx = Done r /\
    r <> 0 /\
    ((r = -1 /\
      forall i : nat, 1 <= Z.of_nat i <= Z.min sidx (size t - strlen text) ->
        ~ occurs_at (m_chars t) text i) \/
     (1 <= r <= Z.min sidx (size t - strlen text) /\
      occurs_at (m_chars t) text (Z.to_nat r) /\
      forall i : nat, r < Z.of_nat i <= Z.min sidx (size t - strlen text) ->
        ~ occurs_at (m_chars t) text i)).
Proof.
  intros Hfit Hsz [Hs0 Hs1].
  pose proof INT_MAX_val as HM. pose proof INT_MIN_val as Hm.
  pose proof SIZE_MOD_val as HS.
  assert (0 <= strlen text) by (unfold strlen; lia).
  destruct (rfind_spec t text sidx Hfit ltac:(lia) (conj Hs0 Hs1))
    as (r & Hr & Hpost).
  exists r. split; [exact Hr |].
  destruct Hpost as [[-> Hnone] | (i & -> & Hi & Hocc & Hright)].
  - split; [lia |]. left. split; [reflexivity |].
    intros i Hi. apply Hnone. lia.
  - rewrite to_int_small by lia.
    split; [lia |]. right. split; [lia |].
    rewrite Nat2Z.id. split; [exact Hocc |].
    intros j Hj. apply Hright. lia.
Qed.

(** "an" in "banana" from index 4 downwards: found at index 3. *)
Lemma rfind_rightmost_from_one_witness :
  strlen (chars_of "an") <= size (buf (chars_of "banana")) /\
  size (buf (chars_of "banana")) <= INT_MAX /\ in_size_t 4 /\
  exists r, rfind (buf (chars_of "banana")) (chars_of "an") 4 = Done r /\
    r <> 0 /\
    ((r = -1 /\
      forall i : nat,
        1 <= Z.of_nat i <=
          Z.min 4 (size (buf (chars_of "banana")) - strlen (chars_of "an")) ->
        ~ occurs_at (m_chars (buf (chars_of "banana"))) (chars_of "an") i) \/
     (1 <= r <= Z.min 4 (size (buf (chars_of "banana")) - strlen (chars_of "an")) /\
      occurs_at (m_chars (buf (chars_of "banana"))) (chars_of "an") (Z.to_nat r) /\
      forall i : nat,
        r < Z.of_nat i <=
          Z.min 4 (size (buf (chars_of "banana")) - strlen (chars_of "an")) ->
        ~ occurs_at (m_chars (buf (chars_of "banana"))) (chars_of "an") i)).
Proof.
  assert (H1 : strlen (chars_of "an") <= size (buf (chars_of "banana")))
    by (by vm_compute).
  assert (H2 : size (buf (chars_of "banana")) <= INT_MAX) by (by vm_compute).
  assert (H3 : in_size_t 4) by (by vm_compute).
  split; [exact H1 |]. split; [exact H2 |]. split; [exact H3 |].
  exact (rfind_rightmost_from_one (buf (chars_of "banana")) (chars_of "an") 4
           H1 H2 H3).
Defined.

(** ** More on [compare] *)

(** Every run of the loop of [compare] returns, and exchanging the two
    buffers negates the result. *)
Lemma compare_loop_swap unc_tolower a b len max_idx :
  max_idx <= size a -> max_idx <= size b -> max_idx < SIZE_MOD ->
  size a <= INT_MAX -> size b <= INT_MAX ->
  Forall code_point (m_chars a) -> Forall code_point (m_chars b) ->
  (forall c, code_point c -> code_point (unc_tolower c)) ->
  forall (fuel : nat) idx,
    0 <= idx -> (Z.to_nat (max_idx - idx) < fuel)%nat ->
    exists r,
      compare_loop unc_tolower a b len max_idx fuel idx = Done r /\
      compare_loop unc_tolower b a len max_idx fuel idx = Done (- r).
Proof.
  intros Ha Hb Hmax Hsa Hsb Hca Hcb Hlow.
  pose proof INT_MAX_val as HM. pose proof INT_MIN_val as Hm.
  pose proof (vec_size_nonneg (m_chars a)) as Ha0.
  pose proof (vec_size_nonneg (m_chars b)) as Hb0.
  fold (size a) in Ha0. fold (size b) in Hb0.
  induction fuel as [|fuel IH]; intros idx Hidx Hfuel; [lia |].
  cbn [compare_loop].
  destruct (Z.ltb_spec idx max_idx) as [Hlt|Hge].
  - unfold vec_get.
    destruct (m_chars a !! Z.to_nat idx) as [c1|] eqn:H1.
    2:{ apply lookup_ge_None in H1. unfold size, vec_size in *. lia. }
    destruct (m_chars b !! Z.to_nat idx) as [c2|] eqn:H2.
    2:{ apply lookup_ge_None in H2. unfold size, vec_size in *. lia. }
    cbn [bind].
    pose proof (Forall_lookup_1 _ _ _ _ Hca H1) as Hc1.
    pose proof (Forall_lookup_1 _ _ _ _ Hcb H2) as Hc2.
    pose proof (Hlow c1 Hc1) as Hl1. pose proof (Hlow c2 Hc2) as Hl2.
    unfold code_point in *.
    rewrite (Z.eqb_sym c2 c1).
    destruct (Z.eqb_spec c1 c2) as [Heq|Hne].
    + rewrite to_size_t_small by lia. apply IH; lia.
    + unfold int_sub, int_neg.
      rewrite !(to_int_small (unc_tolower _ - unc_tolower _)) by lia.
      rewrite !(to_int_small (_ - _)) by lia.
      rewrite !to_int_small by lia.
      destruct (Z.eqb_spec (unc_tolower c1 - unc_tolower c2) 0),
               (Z.eqb_spec (unc_tolower c2 - unc_tolower c1) 0); try lia.
      * eexists. split; [reflexivity |]. f_equal. lia.
      * eexists. split; [reflexivity |]. f_equal. lia.
  - exists (compare_tail (size a) (size b) len idx).
    split; [reflexivity |]. f_equal.
    destruct (Z.eq_dec idx len) as [->|Hne].
    + unfold compare_tail. by rewrite Z.eqb_refl.
    + rewrite !compare_tail_diff by lia. lia.
Qed.

(** X10: on buffers of non-negative code points whose sizes fit an [int],
    with a lowercasing function that maps code points to code points,
    [compare] always returns, and exchanging its two buffers negates the
    result. *)
Theorem compare_antisymmetric (unc_tolower : Z -> Z) (a b : unc_text) (len : Z) :
  0 <= len ->
  size a <= INT_MAX -> size b <= INT_MAX ->
  Forall code_point (m_chars a) -> Forall code_point (m_chars b) ->
  (forall c, code_point c -> code_point (unc_tolower c)) ->
  exists r,
    compare unc_tolower a b len = Done r /\
    compare unc_tolower b a len = Done (- r).
Proof.
  intros Hlen Hsa Hsb Hca Hcb Hlow.
  pose proof INT_MAX_val as HM. pose proof SIZE_MOD_val as HS.
  pose proof (vec_size_nonneg (m_chars a)) as Ha0.
  pose proof (vec_size_nonneg (m_chars b)) as Hb0.
  fold (size a) in Ha0. fold (size b) in Hb0.
  unfold compare.
  rewrite (Z.min_comm (size b) (size a)).
  apply compare_loop_swap; try assumption; lia.
Qed.

(** "Banana" against "apple" and back: 1 and -1. *)
Lemma compare_antisymmetric_witness :
  0 <= 6 /\
  size (buf (chars_of "Banana")) <= INT_MAX /\
  size (buf (chars_of "apple")) <= INT_MAX /\
  Forall code_point (m_chars (buf (chars_of "Banana"))) /\
  Forall code_point (m_chars (buf (chars_of "apple"))) /\
  (forall c, code_point c -> code_point (ascii_tolower c)) /\
  exists r,
    compare ascii_tolower (buf (chars_of "Banana")) (buf (chars_of "apple")) 6 =
      Done r /\
    compare ascii_tolower (buf (chars_of "apple")) (buf (chars_of "Banana")) 6 =
      Done (- r).
Proof.
  assert (H1 : 0 <= 6) by (by vm_compute).
  assert (H2 : size (buf (chars_of "Banana")) <= INT_MAX) by (by vm_compute).
  assert (H3 : size (buf (chars_of "apple")) <= INT_MAX) by (by vm_compute).
  assert (H4 : Forall code_point (m_chars (buf (chars_of "Banana")))).
  { apply (bool_decide_unpack _). by vm_compute. }
  assert (H5 : Forall code_point (m_chars (buf (chars_of "apple")))).
  { apply (bool_decide_unpack _). by vm_compute. }
  assert (H6 : forall c, code_point c -> code_point (ascii_tolower c)).
  { intros c. unfold code_point, ascii_tolower. rewrite INT_MAX_val.
    destruct (Z.leb_spec 65 c), (Z.leb_spec c 90); simpl; lia. }
  split; [exact H1 |]. split; [exact H2 |]. split; [exact H3 |].
  split; [exact H4 |]. split; [exact H5 |]. split; [exact H6 |].
  exact (compare_antisymmetric ascii_tolower
           (buf (chars_of "Banana")) (buf (chars_of "apple")) 6
           H1 H2 H3 H4 H5 H6).
Defined.

(** X11: when two buffers agree on the first [min maxLen (min a.size
    b.size)] positions, and either that stretch has the full length
    [maxLen] or the buffers have the same size, [compare] returns 0.  In
    particular a buffer compares equal to itself and to any buffer with
    the same code points, for every [maxLen]. *)
Theorem compare_zero (unc_tolower : Z -> Z) (a b : unc_text) (len : Z) :
  in_size_t len ->
  take (Z.to_nat (Z.min len (Z.min (size a) (size b)))) (m_chars a) =
    take (Z.to_nat (Z.min len (Z.min (size a) (size b)))) (m_chars b) ->
  Z.min len (Z.min (size a) (size b)) = len \/ size a = size b ->
  compare unc_tolower a b len = Done 0.
Proof.
  intros [Hlen0 Hlen1] Hagree Hcase.
  pose proof (vec_size_nonneg (m_chars a)) as Ha0.
  pose proof (vec_size_nonneg (m_chars b)) as Hb0.
  fold (size a) in Ha0. fold (size b) in Hb0.
  unfold compare.
  remember (Z.min len (Z.min (size a) (size b))) as max_idx eqn:Hmax.
  rewrite (compare_loop_skip unc_tolower a b len max_idx); try lia.
  2:{ intros j Hj. apply (agree_of_take _ _ _ Hagree). lia. }
  rewrite compare_loop_exit by lia. f_equal.
  rewrite Z.add_0_l, Z2Nat.id by lia.
  unfold compare_tail.
  destruct (Z.eqb_spec max_idx len) as [Heq|Hne]; [reflexivity |].
  destruct Hcase as [Hfull | Hsame]; [lia |].
  rewrite Hsame, Z.sub_diag.
  destruct (Z.gtb_spec (size b) (size b)); [lia | reflexivity].
Qed.

(** "abc" against itself with a maximal length of 7. *)
Lemma compare_zero_witness :
  in_size_t 7 /\
  take (Z.to_nat (Z.min 7 (Z.min (size (buf (chars_of "abc")))
                                 (size (buf (chars_of "abc"))))))
       (m_chars (buf (chars_of "abc"))) =
    take (Z.to_nat (Z.min 7 (Z.min (size (buf (chars_of "abc")))
                                   (size (buf (chars_of "abc"))))))
         (m_chars (buf (chars_of "abc"))) /\
  (Z.min 7 (Z.min (size (buf (chars_of "abc"))) (size (buf (chars_of "abc")))) = 7 \/
   size (buf (chars_of "abc")) = size (buf (chars_of "abc"))) /\
  compare ascii_tolower (buf (chars_of "abc")) (buf (chars_of "abc")) 7 = Done 0.
Proof.
  assert (H1 : in_size_t 7) by (by vm_compute).
  assert (H2 : take (Z.to_nat (Z.min 7 (Z.min (size (buf (chars_of "abc")))
                                               (size (buf (chars_of "abc"))))))
                    (m_chars (buf (chars_of "abc"))) =
               take (Z.to_nat (Z.min 7 (Z.min (size (buf (chars_of "abc")))
                                               (size (buf (chars_of "abc"))))))
                    (m_chars (buf (chars_of "abc")))) by reflexivity.
  assert (H3 : Z.min 7 (Z.min (size (buf (chars_of "abc")))
                              (size (buf (chars_of "abc")))) = 7 \/
               size (buf (chars_of "abc")) = size (buf (chars_of "abc")))
    by (right; reflexivity).
  split; [exact H1 |]. split; [exact H2 |]. split; [exact H3 |].
  exact (compare_zero ascii_tolower (buf (chars_of "abc")) (buf (chars_of "abc")) 7
           H1 H2 H3).
Defined.

(** X12: at the first position where the two buffers differ, when the
    lowercase forms of the two code points differ too, [compare] returns
    the difference of the lowercase forms: the order is decided without
    regard to case, also where the raw code points are in the opposite
    order. *)
Theorem compare_case_insensitive_difference (unc_tolower : Z -> Z)
    (a b : unc_text) (len : Z) (i : nat) (ca cb : Z) :
  in_size_t len ->
  Z.of_nat i < Z.min len (Z.min (size a) (size b)) ->
  take i (m_chars a) = take i (m_chars b) ->
  m_chars a !! i = Some ca -> m_chars b !! i = Some cb ->
  unc_tolower ca <> unc_tolower cb ->
  INT_MIN <= unc_tolower ca - unc_tolower cb <= INT_MAX ->
  compare unc_tolower a b len = Done (unc_tolower ca - unc_tolower cb).
Proof.
  intros [Hlen0 Hlen1] Hi Hagree Hca Hcb Hlow Hdiff.
  assert (Hne : ca <> cb) by congruence.
  unfold compare.
  remember (Z.min len (Z.min (size a) (size b))) as max_idx eqn:Hmax.
  replace (Z.to_nat max_idx + 1)%nat
    with (i + S (Z.to_nat max_idx - i))%nat by lia.
  rewrite (compare_loop_skip unc_tolower a b len max_idx); try lia.
  2:{ intros j Hj. apply (agree_of_take _ _ _ Hagree). lia. }
  rewrite (compare_loop_differ unc_tolower a b len max_idx _ _ ca cb);
    rewrite ?Z.add_0_l, ?Nat2Z.id; try (lia || assumption).
  cbv zeta. unfold int_sub at 1 3. rewrite !to_int_small by lia.
  destruct (Z.eqb_spec (unc_tolower ca - unc_tolower cb) 0); [lia | reflexivity].
Qed.

(** "Banana" against "apple": 'B' is below 'a' as a raw code point, and
    the result is 'b' - 'a' = 1. *)
Lemma compare_case_insensitive_difference_witness :
  in_size_t 6 /\
  Z.of_nat 0 < Z.min 6 (Z.min (size (buf (chars_of "Banana")))
                              (size (buf (chars_of "apple")))) /\
  take 0 (m_chars (buf (chars_of "Banana"))) =
    take 0 (m_chars (buf (chars_of "apple"))) /\
  m_chars (buf (chars_of "Banana")) !! 0%nat = Some 66 /\
  m_chars (buf (chars_of "apple")) !! 0%nat = Some 97 /\
  ascii_tolower 66 <> ascii_tolower 97 /\
  INT_MIN <= ascii_tolower 66 - ascii_tolower 97 <= INT_MAX /\
  compare ascii_tolower (buf (chars_of "Banana")) (buf (chars_of "apple")) 6 =
    Done (ascii_tolower 66 - ascii_tolower 97).
Proof.
  assert (H1 : in_size_t 6) by (by vm_compute).
  assert (H2 : Z.of_nat 0 < Z.min 6 (Z.min (size (buf (chars_of "Banana")))
                                          (size (buf (chars_of "apple")))))
    by (by vm_compute).
  assert (H3 : take 0 (m_chars (buf (chars_of "Banana"))) =
               take 0 (m_chars (buf (chars_of "apple")))) by reflexivity.
  assert (H4 : m_chars (buf (chars_of "Banana")) !! 0%nat = Some 66) by reflexivity.
  assert (H5 : m_chars (buf (chars_of "apple")) !! 0%nat = Some 97) by reflexivity.
  assert (H6 : ascii_tolower 66 <> ascii_tolower 97) by (by vm_compute).
  assert (H7 : INT_MIN <= ascii_tolower 66 - ascii_tolower 97 <= INT_MAX)
    by (by vm_compute).
  split; [exact H1 |]. split; [exact H2 |]. split; [exact H3 |].
  split; [exact H4 |]. split; [exact H5 |]. split; [exact H6 |].
  split; [exact H7 |].
  exact (compare_case_insensitive_difference ascii_tolower
           (buf (chars_of "Banana")) (buf (chars_of "apple")) 6 0 66 97
           H1 H2 H3 H4 H5 H6 H7).
Defined.

(** ** More on [replace] *)

Lemma erase_done t idx len t1 :
  erase t idx len = Done t1 -> 0 <= idx -> 0 <= len ->
  size t1 = size t - len.
Proof.
  unfold erase, size. intros Hrun Hidx Hlen.
  destruct (Z.eqb_spec len 0) as [->|Hne].
  - injection Hrun as <-. lia.
  - unfold vec_erase in Hrun.
    destruct (Z.leb_spec (idx + len) (vec_size (m_chars t))); [| discriminate].
    cbn [bind] in Hrun. injection Hrun as <-. cbn [m_chars with_chars].
    by apply vec_size_erased.
Qed.

Lemma insert_done t idx ref t2 :
  insert t idx ref = Done t2 -> 0 <= idx ->
  size t2 = size t + size ref /\ m_logok t2 = false.
Proof.
  unfold insert, size. intros Hrun Hidx.
  unfold vec_insert in Hrun.
  destruct (Z.leb_spec idx (vec_size (m_chars t))); [| discriminate].
  cbn [bind] in Hrun. injection Hrun as <-. cbn [m_chars m_logok with_chars].
  split; [| reflexivity]. by apply vec_size_inserted.
Qed.

(** What a finished run of the loop of [replace] has done to the buffer:
    one erase and one insert for every entry it added to the log. *)
Lemma replace_loop_effect oldtext newtext : forall fuel fidx rcnt t log rcnt' t' log',
  replace_loop oldtext newtext fuel fidx rcnt t log = Done (rcnt', t', log') ->
  exists l, log' = log ++ l /\
    size t' = size t + Z.of_nat (length l) * (size newtext - strlen oldtext) /\
    (l = [] -> t' = t) /\
    (l <> [] -> m_logok t' = false).
Proof.
  assert (Holen : 0 <= strlen oldtext) by (unfold strlen; lia).
  induction fuel as [|fuel IH]; intros fidx rcnt t log rcnt' t' log' Hrun.
  - simpl in Hrun. destruct (fidx >=? 0); [discriminate |].
    injection Hrun as <- <- <-. exists []. rewrite app_nil_r.
    split; [done |]. split; [simpl; lia |]. done.
  - cbn [replace_loop] in Hrun.
    destruct (fidx >=? 0).
    2:{ injection Hrun as <- <- <-. exists []. rewrite app_nil_r.
        split; [done |]. split; [simpl; lia |]. done. }
    pose proof (to_size_t_range fidx) as [Hf0 _].
    destruct (erase t (to_size_t fidx) (strlen oldtext)) as [t1| |] eqn:He;
      cbn [bind] in Hrun; try discriminate.
    destruct (insert t1 (to_size_t fidx) newtext) as [t2| |] eqn:Hi;
      cbn [bind] in Hrun; try discriminate.
    destruct (find t2 oldtext _) as [f'| |] eqn:Hf;
      cbn [bind] in Hrun; try discriminate.
    apply IH in Hrun as (l & -> & Hsize & Hnil & Hcons).
    apply erase_done in He; [| lia | lia].
    apply insert_done in Hi as [Hi Hstale]; [| lia].
    eexists (_ :: l). split; [by rewrite <- app_assoc |].
    split; [| split; [discriminate |]].
    + rewrite Hsize, Hi, He. simpl length. lia.
    + intros _. destruct l as [|e l]; [by rewrite Hnil | by apply Hcons].
Qed.

(** X13: on a buffer whose indices fit the [int] result, when the pattern
    occurs nowhere, [replace] returns 0 at once and leaves the buffer as it
    is, the display cache and its validity flag included. *)
Theorem replace_without_occurrence (t newtext : unc_text) (oldtext : list Z)
    (fuel : nat) :
  size t <= INT_MAX ->
  (forall i : nat, ~ occurs_at (m_chars t) oldtext i) ->
  replace fuel t oldtext newtext = Done (0, t, []).
Proof.
  intros Hsz Hnone.
  pose proof SIZE_MOD_val as HS.
  destruct (find_spec t oldtext 0 Hsz) as (r & Hfind & Hpost);
    [unfold in_size_t; lia |].
  destruct Hpost as [[-> _] | (_ & Hocc & _)]; [| by apply Hnone in Hocc].
  unfold replace, find_default_idx. rewrite Hfind. cbn [bind].
  by destruct fuel.
Qed.

(** "banana" has no "x". *)
Lemma replace_without_occurrence_witness :
  size (buf (chars_of "banana")) <= INT_MAX /\
  (forall i : nat, ~ occurs_at (m_chars (buf (chars_of "banana"))) (chars_of "x") i) /\
  replace 0 (buf (chars_of "banana")) (chars_of "x") (buf (chars_of "yy")) =
    Done (0, buf (chars_of "banana"), []).
Proof.
  assert (H1 : size (buf (chars_of "banana")) <= INT_MAX) by (by vm_compute).
  assert (H2 : forall i : nat,
             ~ occurs_at (m_chars (buf (chars_of "banana"))) (chars_of "x") i).
  { intros i [Hfit Hocc].
    destruct i as [|[|[|[|[|[|i]]]]]]; try discriminate Hocc.
    simpl in Hfit. lia. }
  split; [exact H1 |]. split; [exact H2 |].
  exact (replace_without_occurrence (buf (chars_of "banana")) (buf (chars_of "yy"))
           (chars_of "x") 0 H1 H2).
Defined.

(** X14: on a buffer with [(size + 1) * (newLen + 1)] within [INT_MAX],
    [replace] returns a count [rcnt] and leaves a buffer whose size is the
    old size plus [rcnt * (newLen - oldLen)]; the cache is marked stale as
    soon as one replacement took place, and the buffer is untouched when
    none did. *)
Theorem replace_size_and_cache (t newtext : unc_text) (oldtext : list Z) :
  (size t + 1) * (size newtext + 1) <= INT_MAX ->
  exists rcnt t' log,
    (forall fuel, (Z.to_nat (size t) < fuel)%nat ->
       replace fuel t oldtext newtext = Done (rcnt, t', log)) /\
    0 <= rcnt /\
    size t' = size t + rcnt * (size newtext - strlen oldtext) /\
    (0 < rcnt -> m_logok t' = false) /\
    (rcnt = 0 -> t' = t).
Proof.
  intros Hroom.
  pose proof INT_MAX_val as HM. pose proof SIZE_MOD_val as HS.
  assert (Holen : 0 <= strlen oldtext) by (unfold strlen; lia).
  assert (Hnlen : 0 <= size newtext) by apply vec_size_nonneg.
  assert (Hsz : 0 <= size t) by apply vec_size_nonneg.
  destruct (find_spec t oldtext 0) as (r & Hfind & Hpost);
    [nia | unfold in_size_t; lia |].
  pose proof (find_post_range _ _ _ _ (Z.le_refl 0) Hpost) as Hr.
  fold (size t) in Hr.
  destruct (replace_loop_spec oldtext newtext (S (Z.to_nat (size t))) r 0 t [])
    as (rcnt & t' & log & Hrun & Hcount & _).
  { destruct Hr as [-> | [Hr1 Hr2]]; [by left | right]. lia. }
  { nia. }
  { lia. }
  { nia. }
  destruct (replace_loop_effect _ _ _ _ _ _ _ _ _ _ (Hrun _ (le_n _)))
    as (l & Hl & Hsize & Hnil & Hcons).
  rewrite !app_nil_l in Hl. subst l.
  exists rcnt, t', log. split; [| split; [lia | split; [| split]]].
  - intros fuel Hfuel. unfold replace, find_default_idx.
    rewrite Hfind. cbn [bind]. apply Hrun. lia.
  - rewrite Hsize. f_equal. f_equal. lia.
  - intros Hpos. apply Hcons. intros ->. simpl in Hcount. lia.
  - intros Hzero. apply Hnil. destruct log; [done | simpl in Hcount; lia].
Qed.

(** "banana" with "an" replaced by "xyz". *)
Lemma replace_size_and_cache_witness :
  (size (buf (chars_of "banana")) + 1) * (size (buf (chars_of "xyz")) + 1)
    <= INT_MAX /\
  exists rcnt t' log,
    (forall fuel, (Z.to_nat (size (buf (chars_of "banana"))) < fuel)%nat ->
       replace fuel (buf (chars_of "banana")) (chars_of "an") (buf (chars_of "xyz")) =
         Done (rcnt, t', log)) /\
    0 <= rcnt /\
    size t' = size (buf (chars_of "banana")) +
              rcnt * (size (buf (chars_of "xyz")) - strlen (chars_of "an")) /\
    (0 < rcnt -> m_logok t' = false) /\
    (rcnt = 0 -> t' = buf (chars_of "banana")).
Proof.
  assert (H : (size (buf (chars_of "banana")) + 1) *
              (size (buf (chars_of "xyz")) + 1) <= INT_MAX) by (by vm_compute).
  split; [exact H |].
  exact (replace_size_and_cache
           (buf (chars_of "banana")) (buf (chars_of "xyz")) (chars_of "an") H).
Defined.

(** ** How the mutators compose *)

(** X15: [resize(n)] leaves exactly [n] elements: the first
    [min n size] old ones in place and zeros behind them.  Growing a
    buffer and shrinking it back to its old size restores its code points;
    a resize to the current size returns the buffer untouched, with its
    cache still valid if it was. *)
Theorem resize_result (t : unc_text) (n : Z) :
  0 <= n ->
  size (resize t n) = n /\
  (forall j : nat, Z.of_nat j < Z.min n (size t) ->
     m_chars (resize t n) !! j = m_chars t !! j) /\
  (forall j : nat, size t <= Z.of_nat j < n ->
     m_chars (resize t n) !! j = Some 0) /\
  (size t <= n -> m_chars (resize (resize t n) (size t)) = m_chars t) /\
  (n = size t -> resize t n = t).
Proof.
  intros Hn.
  assert (Hchars : m_chars (resize t n) = vec_resize (m_chars t) n).
  { unfold resize. destruct (Z.eqb_spec (size t) n) as [<-|]; [| reflexivity].
    unfold vec_resize, size, vec_size. rewrite Nat2Z.id, take_ge by lia.
    by rewrite Nat.sub_diag, app_nil_r. }
  assert (Hsize : size (resize t n) = n).
  { unfold size. rewrite Hchars. by apply vec_size_resize. }
  split; [exact Hsize |].
  split; [| split; [| split]].
  - intros j Hj. rewrite Hchars. unfold vec_resize, size, vec_size in *.
    rewrite lookup_app_l by (rewrite length_take; lia).
    apply lookup_take_lt. lia.
  - intros j Hj. rewrite Hchars. unfold vec_resize, size, vec_size in *.
    rewrite lookup_app_r by (rewrite length_take; lia).
    rewrite length_take. apply lookup_replicate_2. lia.
  - intros Hgrow.
    unfold resize at 1. rewrite Hsize.
    destruct (Z.eqb_spec n (size t)) as [->|Hne].
    + unfold resize. by rewrite Z.eqb_refl.
    + cbn [m_chars with_chars]. rewrite Hchars.
      unfold vec_resize, size, vec_size in *.
      rewrite Nat2Z.id.
      rewrite take_app_le by (rewrite length_take; lia).
      rewrite take_take, Nat.min_l, take_ge by lia.
      rewrite length_app, length_take, length_replicate.
      replace (length (m_chars t) - _)%nat with 0%nat by lia.
      by rewrite app_nil_r.
  - intros ->. unfold resize. by rewrite Z.eqb_refl.
Qed.

(** "abc" resized to 5. *)
Lemma resize_result_witness :
  0 <= 5 /\
  size (resize (buf (chars_of "abc")) 5) = 5 /\
  (forall j : nat, Z.of_nat j < Z.min 5 (size (buf (chars_of "abc"))) ->
     m_chars (resize (buf (chars_of "abc")) 5) !! j =
       m_chars (buf (chars_of "abc")) !! j) /\
  (forall j : nat, size (buf (chars_of "abc")) <= Z.of_nat j < 5 ->
     m_chars (resize (buf (chars_of "abc")) 5) !! j = Some 0) /\
  (size (buf (chars_of "abc")) <= 5 ->
     m_chars (resize (resize (buf (chars_of "abc")) 5) (size (buf (chars_of "abc")))) =
       m_chars (buf (chars_of "abc"))) /\
  (5 = size (buf (chars_of "abc")) ->
     resize (buf (chars_of "abc")) 5 = buf (chars_of "abc")).
Proof.
  assert (H : 0 <= 5) by (by vm_compute).
  split; [exact H |].
  exact (resize_result (buf (chars_of "abc")) 5 H).
Defined.

(** X16: an append is an insert at the end of the buffer: [append(ref)]
    does what [insert(size(), ref)] does, and [append(ch)] what
    [insert(size(), ch)] does, and neither insert is out of range. *)
Theorem append_is_insert_at_end (t ref : unc_text) (ch : Z) :
  insert t (size t) ref = Done (append t ref) /\
  insert_ch t (size t) ch = Done (append_ch t ch).
Proof.
  pose proof (vec_size_nonneg (m_chars t)) as H0.
  unfold insert, insert_ch, append, append_ch, size.
  rewrite !vec_insert_ok by lia. cbn [bind].
  unfold vec_size. rewrite Nat2Z.id, take_ge, drop_ge by lia.
  by rewrite !app_nil_r.
Qed.

(** X17: [erase(idx, len)] on a range inside the buffer, followed by an
    [insert] at [idx] of the code points that were erased, restores the
    code-point sequence. *)
Theorem erase_insert_roundtrip (t : unc_text) (idx len : Z) :
  0 <= idx -> 0 <= len -> idx + len <= size t ->
  exists t1 t2,
    erase t idx len = Done t1 /\
    insert t1 idx (buf (take (Z.to_nat len) (drop (Z.to_nat idx) (m_chars t)))) =
      Done t2 /\
    m_chars t2 = m_chars t.
Proof.
  intros Hidx Hlen Hfit.
  destruct (erase_ok t idx len Hidx Hlen Hfit) as (t1 & He & Hc1 & Hs1 & _).
  destruct (insert_ok t1 idx
              (buf (take (Z.to_nat len) (drop (Z.to_nat idx) (m_chars t)))))
    as (t2 & Hi & Hc2 & _); [lia |].
  exists t1, t2. split; [exact He |]. split; [exact Hi |].
  rewrite Hc2, Hc1. cbn [m_chars buf].
  unfold size, vec_size in *.
  rewrite take_app_le by (rewrite length_take; lia).
  rewrite take_take, Nat.min_id.
  rewrite drop_app_ge by (rewrite length_take; lia).
  rewrite length_take, Nat.min_l, Nat.sub_diag, drop_0 by lia.
  replace (Z.to_nat (idx + len)) with (Z.to_nat idx + Z.to_nat len)%nat by lia.
  rewrite app_assoc, take_take_drop. apply take_drop.
Qed.

(** "nan" erased from "banana" at index 2 and put back. *)
Lemma erase_insert_roundtrip_witness :
  0 <= 2 /\ 0 <= 3 /\ 2 + 3 <= size (buf (chars_of "banana")) /\
  exists t1 t2,
    erase (buf (chars_of "banana")) 2 3 = Done t1 /\
    insert t1 2
      (buf (take (Z.to_nat 3) (drop (Z.to_nat 2) (m_chars (buf (chars_of "banana")))))) =
      Done t2 /\
    m_chars t2 = m_chars (buf (chars_of "banana")).
Proof.
  assert (H1 : 0 <= 2) by (by vm_compute).
  assert (H2 : 0 <= 3) by (by vm_compute).
  assert (H3 : 2 + 3 <= size (buf (chars_of "banana"))) by (by vm_compute).
  split; [exact H1 |]. split; [exact H2 |]. split; [exact H3 |].
  exact (erase_insert_roundtrip (buf (chars_of "banana")) 2 3 H1 H2 H3).
Defined.

Lemma occurs_at_inserted (v p : list Z) (i : nat) :
  (i <= length v)%nat -> occurs_at (take i v ++ p ++ drop i v) p i.
Proof.
  intros Hi. unfold occurs_at.
  rewrite !length_app, length_take, length_drop. split; [lia |].
  rewrite drop_app_length' by (rewrite length_take; lia).
  by rewrite take_app_length.
Qed.

(** X18: after [insert(idx, p)] with [idx] in [0, size] and a non-empty
    [p], on buffers whose sizes together fit an [int], the buffer starts
    with [p] at [idx], and a [find] for the code points of [p] from [idx]
    on returns [idx]. *)
Theorem insert_then_search (t p : unc_text) (idx : Z) :
  0 <= idx <= size t -> m_chars p <> [] -> size t + size p <= INT_MAX ->
  exists t', insert t idx p = Done t' /\
    startswith t' p idx = Done true /\
    startswith_cstr t' (m_chars p) idx = Done true /\
    find t' (m_chars p) idx = Done idx.
Proof.
  intros Hidx Hne Hsz.
  pose proof INT_MAX_val as HM. pose proof SIZE_MOD_val as HS.
  pose proof (vec_size_nonneg (m_chars p)) as Hp0. fold (size p) in Hp0.
  destruct (insert_ok t idx p Hidx) as (t' & Hins & Hchars & Hsize & _).
  assert (Hocc : occurs_at (m_chars t') (m_chars p) (Z.to_nat idx)).
  { rewrite Hchars. apply occurs_at_inserted. unfold size, vec_size in *. lia. }
  exists t'. split; [exact Hins |].
  split; [| split].
  - unfold startswith. rewrite startswith_loop_spec by lia.
    rewrite drop_0. by rewrite bool_decide_eq_true_2; [| split; [right |]].
  - unfold startswith_cstr. rewrite startswith_cstr_loop_spec by lia.
    by rewrite bool_decide_eq_true_2; [| split; [right |]].
  - destruct (find_spec t' (m_chars p) idx) as (r & Hr & Hpost);
      [lia | unfold in_size_t; lia |].
    rewrite Hr. f_equal.
    destruct Hpost as [[-> Hnone] | (Hle & _ & Hleft)].
    + exfalso. apply (Hnone (Z.to_nat idx)); [lia | exact Hocc].
    + destruct (Z.lt_ge_cases idx r) as [Hlt|]; [| lia].
      exfalso. apply (Hleft (Z.to_nat idx)); [lia | exact Hocc].
Qed.

(** "XY" inserted into "abcd" at index 2 is found there. *)
Lemma insert_then_search_witness :
  0 <= 2 <= size (buf (chars_of "abcd")) /\
  m_chars (buf (chars_of "XY")) <> [] /\
  size (buf (chars_of "abcd")) + size (buf (chars_of "XY")) <= INT_MAX /\
  exists t', insert (buf (chars_of "abcd")) 2 (buf (chars_of "XY")) = Done t' /\
    startswith t' (buf (chars_of "XY")) 2 = Done true /\
    startswith_cstr t' (m_chars (buf (chars_of "XY"))) 2 = Done true /\
    find t' (m_chars (buf (chars_of "XY"))) 2 = Done 2.
Proof.
  assert (H1 : 0 <= 2 <= size (buf (chars_of "abcd"))) by (by vm_compute).
  assert (H2 : m_chars (buf (chars_of "XY")) <> []) by discriminate.
  assert (H3 : size (buf (chars_of "abcd")) + size (buf (chars_of "XY")) <= INT_MAX)
    by (by vm_compute).
  split; [exact H1 |]. split; [exact H2 |]. split; [exact H3 |].
  exact (insert_then_search (buf (chars_of "abcd")) (buf (chars_of "XY")) 2
           H1 H2 H3).
Defined.

(** ** The display form after a mutation *)

(** X19: [c_str] called after [append(ch)] returns the encoded code points
    the buffer held before, then the encoded form of [ch] (of U+2424 for a
    newline, of U+240D for a carriage return), then one zero byte,
    whatever the cache held before the append; the call leaves the code
    points as the append left them, and a second call returns the same
    bytes and changes nothing. *)
Theorem c_str_after_append (encode_utf8 : Z -> list Z) (t : unc_text) (ch : Z) :
  fst (c_str encode_utf8 (append_ch t ch)) =
    concat (map (fun c => encode_utf8 (spec_visible c)) (m_chars t)) ++
    encode_utf8 (spec_visible ch) ++ [0] /\
  fst (c_str encode_utf8 (append_ch t 10)) =
    concat (map (fun c => encode_utf8 (spec_visible c)) (m_chars t)) ++
    encode_utf8 9252 ++ [0] /\
  m_chars (snd (c_str encode_utf8 (append_ch t ch))) = m_chars t ++ [ch] /\
  c_str encode_utf8 (snd (c_str encode_utf8 (append_ch t ch))) =
    c_str encode_utf8 (append_ch t ch).
Proof.
  assert (Hrun : forall c, c_str encode_utf8 (append_ch t c) =
    (spec_display encode_utf8 (m_chars t ++ [c]),
     {| m_chars := m_chars t ++ [c];
        m_logtext := spec_display encode_utf8 (m_chars t ++ [c]);
        m_logok := true |})).
  { intros c. unfold c_str. by rewrite update_logtext_stale. }
  assert (Hdisp : forall c, spec_display encode_utf8 (m_chars t ++ [c]) =
    concat (map (fun c => encode_utf8 (spec_visible c)) (m_chars t)) ++
    encode_utf8 (spec_visible c) ++ [0]).
  { intros c. unfold spec_display.
    rewrite map_app, concat_app. simpl. by rewrite app_nil_r, <- app_assoc. }
  rewrite !Hrun. cbn [fst snd m_chars].
  split; [apply Hdisp |]. split; [apply (Hdisp 10) |]. split; [reflexivity |].
  unfold c_str. by rewrite update_logtext_valid.
Qed.
